(** * Chirp data utilities: filter/scrub helpers and the audio pipeline

    A shallow embedding of [chirp/data/filter_scrub_utils.py] and
    [chirp/data/pipeline.py], with the properties of their specification.

    - Module [FilterScrub] models Python records as dictionary objects in a
      heap, so that copying, aliasing and mutation can be told apart.
    - Module [Pipeline] models dataset elements as dictionaries from field
      names to tensors and follows the TensorFlow operations rank by rank.
      Audio samples are exact rationals ([Qc]); every random draw is an
      explicit argument. *)

From Stdlib Require Import QArith Qcanon Qabs.
From stdpp Require Import gmap strings list fin_maps numbers.

(* ===================================================================== *)
(** * filter_scrub_utils.py *)
(* ===================================================================== *)

Module FilterScrub.

(** ** Python values, objects and the heap *)

(** The exception classes of interest. *)
Inductive exn := KeyError | ValueError | TypeError | IndexError.

Inductive result (A : Type) :=
  | Ok (a : A)
  | Raise (e : exn).
Arguments Ok {A} a.
Arguments Raise {A} e.

#[global] Instance result_ret : MRet result := λ A a, Ok a.
#[global] Instance result_bind : MBind result := λ A B f m,
  match m with
  | Ok a => f a
  | Raise e => Raise e
  end.

(** Immutable scalars.  [bool] is a subclass of [int] in Python and
    [True == 1], which matters for [isinstance] and for [in]. *)
Inductive scalar :=
  | PyNone
  | PyBool (b : bool)
  | PyInt (z : Z)
  | PyStr (s : string).

Inductive pytype := NoneType | Bool | Int | Str | List.

#[global] Instance pytype_eq_dec : EqDecision pytype.
Proof. solve_decision. Defined.

Definition loc := positive.

(** A field of a record holds a scalar or a reference to a list object. *)
Inductive value :=
  | Scalar (s : scalar)
  | Ref (l : loc).

(** The heap: dictionary objects (records) and list objects, by address. *)
Record heap := Heap {
  dicts : gmap loc (gmap string value);
  lists : gmap loc (list scalar)
}.

Definition type_of_scalar (s : scalar) : pytype :=
  match s with
  | PyNone => NoneType
  | PyBool _ => Bool
  | PyInt _ => Int
  | PyStr _ => Str
  end.

(** [type(v)] *)
Definition type_of (v : value) : pytype :=
  match v with
  | Scalar s => type_of_scalar s
  | Ref _ => List
  end.

(** [issubclass(t, T)] : every class is its own subclass, and
    [bool] derives from [int]. *)
Definition issubclass (t T : pytype) : bool :=
  bool_decide (t = T) || (bool_decide (t = Bool) && bool_decide (T = Int)).

(** [isinstance(val, T)] *)
Definition isinstance (val : value) (T : pytype) : bool :=
  issubclass (type_of val) T.

Definition as_number (s : scalar) : option Z :=
  match s with
  | PyBool b => Some (Z.b2z b)
  | PyInt z => Some z
  | _ => None
  end.

(** [a == b] on scalars. *)
Definition scalar_eq (a b : scalar) : bool :=
  match a, b with
  | PyNone, PyNone => true
  | PyStr s, PyStr t => bool_decide (s = t)
  | _, _ =>
      match as_number a, as_number b with
      | Some x, Some y => bool_decide (x = y)
      | _, _ => false
      end
  end.

(** [xs == ys] on lists: same length and equal elements. *)
Fixpoint list_eq (xs ys : list scalar) : bool :=
  match xs, ys with
  | [], [] => true
  | x :: xs', y :: ys' => scalar_eq x y && list_eq xs' ys'
  | _, _ => false
  end.

(** [v == w] on values; two list references are equal when the lists
    they point to are. *)
Definition py_eq (h : heap) (v w : value) : bool :=
  match v, w with
  | Scalar a, Scalar b => scalar_eq a b
  | Ref l, Ref m =>
      match lists h !! l, lists h !! m with
      | Some xs, Some ys => list_eq xs ys
      | _, _ => false
      end
  | _, _ => false
  end.

(** [v in values] *)
Definition contains (h : heap) (values : list value) (v : value) : bool :=
  existsb (py_eq h v) values.

(** The loop
    [for index, val in enumerate(values):
       if not isinstance(val, T): raise TypeError(...)] *)
Fixpoint check_types (T : pytype) (values : list value) : result unit :=
  match values with
  | [] => Ok ()
  | val :: rest =>
      if isinstance val T then check_types T rest else Raise TypeError
  end.

(** ** [not_in] *)

Definition not_in (h : heap) (feature_dict : loc) (key : string)
    (values : list value) : result bool :=
  match dicts h !! feature_dict with
  | None => Raise TypeError          (* not a dictionary object *)
  | Some d =>
      match d !! key with
      | None => Raise ValueError     (* '{key} is not a correct field.' *)
      | Some v =>
          let expected_type := type_of v in
          _ ← check_types expected_type values;
          Ok (negb (contains h values v))
      end
  end.

(** ** [scrub] *)

(** [feature_dict.copy()] : a new dictionary object with the same items. *)
Definition dict_copy (h : heap) (d : gmap string value) : heap * loc :=
  let l := fresh (dom (dicts h)) in
  (Heap (<[l := d]> (dicts h)) (lists h), l).

(** Evaluating a list display or comprehension allocates a list object. *)
Definition list_alloc (h : heap) (xs : list scalar) : heap * loc :=
  let l := fresh (dom (lists h)) in
  (Heap (dicts h) (<[l := xs]> (lists h)), l).

(** [d[key] = v] on the dictionary object at [l]. *)
Definition dict_setitem (h : heap) (l : loc) (key : string) (v : value) : heap :=
  Heap (alter (λ d, <[key := v]> d) l (dicts h)) (lists h).

Definition scrub (h : heap) (feature_dict : loc) (key : string)
    (values : list value) : result (heap * loc) :=
  match dicts h !! feature_dict with
  | None => Raise TypeError          (* not a dictionary object *)
  | Some d =>
      match d !! key with
      | None => Raise ValueError     (* '{key} is not a correct field.' *)
      | Some (Scalar _) =>
          Raise ValueError           (* 'Can only scrub values from lists' *)
      | Some (Ref l) =>
          match lists h !! l with
          | None => Raise TypeError  (* dangling reference *)
          | Some xs =>
              if (length values =? 0)%nat || (length xs =? 0)%nat
              then Ok (h, feature_dict)
              else
                match xs with
                | [] => Raise IndexError  (* excluded by the test above *)
                | x0 :: _ =>
                    let data_type := type_of_scalar x0 in
                    _ ← check_types data_type values;
                    let '(h1, new_feature_dict) := dict_copy h d in
                    let '(h2, new_list) :=
                      list_alloc h1
                        (List.filter
                           (λ x, negb (contains h1 values (Scalar x))) xs) in
                    Ok (dict_setitem h2 new_feature_dict key (Ref new_list),
                        new_feature_dict)
                end
          end
      end
  end.

(** ** Sample inputs *)

(** A record with a list of background labels, and values to scrub. *)
Definition heap0 : heap :=
  Heap {[ 1%positive := {[ "filename" := Scalar (PyStr "XC1.wav");
                           "bg_labels" := Ref 1%positive ]} ]}
       {[ 1%positive := [PyStr "amecro"; PyStr "unknown"; PyStr "amecro";
                         PyStr "houspa"] ]}.

(** A record without the field ["genus"]. *)
Definition heap1 : heap :=
  Heap {[ 1%positive := {[ "label" := Scalar (PyInt 3) ]} ]} ∅.


(** ** Reading a record *)

(** The list a field of the record at [feature_dict] refers to. *)
Definition field_list (h : heap) (feature_dict : loc) (key : string)
    : option (list scalar) :=
  d ← dicts h !! feature_dict;
  v ← d !! key;
  match v with
  | Ref l => lists h !! l
  | Scalar _ => None
  end.

End FilterScrub.

(* ===================================================================== *)
(** * pipeline.py *)
(* ===================================================================== *)

Module Pipeline.

Local Open Scope Z_scope.

(** Functions that can fail return an [option]: [None] stands for a
    Python or TensorFlow error, whatever its kind. *)

(** ** Tensors and dataset elements *)

(** A tensor, by element type and rank.  Floating-point samples are
    modelled by exact rationals: rounding, overflow and NaN are left out. *)
Inductive tensor :=
  | Str0 (s : string)
  | Str1 (v : list string)
  | Int0 (z : Z)
  | Int1 (v : list Z)
  | Int2 (m : list (list Z))
  | Flt0 (x : Qc)
  | Flt1 (v : list Qc)
  | Flt2 (m : list (list Qc))
  | Flt3 (c : list (list (list Qc))).

(** A dataset element (a record): [Dict[str, tf.Tensor]]. *)
Abbreviation record := (gmap string tensor).

Definition as_int1 (t : tensor) : option (list Z) :=
  match t with Int1 v => Some v | _ => None end.
Definition as_flt1 (t : tensor) : option (list Qc) :=
  match t with Flt1 v => Some v | _ => None end.
Definition as_flt2 (t : tensor) : option (list (list Qc)) :=
  match t with Flt2 m => Some m | _ => None end.
Definition as_flt3 (t : tensor) : option (list (list (list Qc))) :=
  match t with Flt3 c => Some c | _ => None end.

(** The part of [tfds.features] the pipeline looks at. *)
Inductive feature :=
  | ClassLabel (num_classes : nat)
  | Sequence (f : feature)
  | Audio (sample_rate : Z)
  | Text
  | Tensor.

(** [tfds.core.DatasetInfo]; [features] keeps the order of [items()]. *)
Record DatasetInfo := { features : list (string * feature) }.

(** [info.features[key]] *)
Fixpoint features_lookup (fs : list (string * feature)) (key : string)
    : option feature :=
  match fs with
  | [] => None
  | (k, f) :: rest => if bool_decide (k = key) then Some f else features_lookup rest key
  end.

(** ** Tensor operations *)

(** An index of a slice bound: negative indices count from the end, and
    the result is clamped to the sequence. *)
Definition clamp_index (len i : Z) : Z :=
  let i' := if i <? 0 then i + len else i in
  Z.max 0 (Z.min len i').

(** [l[b:e]] *)
Definition slice {A} (l : list A) (b e : Z) : list A :=
  let len := Z.of_nat (length l) in
  let b' := clamp_index len b in
  let e' := clamp_index len e in
  take (Z.to_nat (e' - b')) (drop (Z.to_nat b') l).

(** [tf.pad(t, [[0, pad_length]])] on a vector; negative paddings are an
    error. *)
Definition pad_right (t : list Qc) (pad_length : Z) : option (list Qc) :=
  if pad_length <? 0 then None
  else Some (t ++ replicate (Z.to_nat pad_length) 0%Qc).

(** [tf.reshape(t, [n])] on a vector: [n] is the size of [t], or [-1]. *)
Definition reshape1 (t : list Qc) (n : Z) : option (list Qc) :=
  if bool_decide (n = -1) || bool_decide (n = Z.of_nat (length t))
  then Some t else None.

(** [tf.random.uniform(shape=[], minval, maxval, dtype=tf.int32)]:
    the raw random [bits] reduced into [[minval, maxval)].  Its only call
    has [minval = 0 < maxval]. *)
Definition random_uniform_int (minval maxval bits : Z) : Z :=
  minval + bits `mod` (maxval - minval).

(** [tf.random.uniform([], minval, maxval)] on floats, from a raw draw
    [u] in [[0, 1)]. *)
Definition random_uniform (minval maxval u : Qc) : Qc :=
  (u * (maxval - minval) + minval)%Qc.

(** Rationals extended by the value [tf.reduce_max] has on an empty
    tensor, minus infinity. *)
Inductive ext := NegInf | Fin (q : Qc).

Definition Qcmax (x y : Qc) : Qc := if decide (x ≤ y)%Qc then y else x.
Definition Qcabs (x : Qc) : Qc := Q2Qc (Qabs x).

Definition ext_max (a b : ext) : ext :=
  match a, b with
  | NegInf, _ => b
  | _, NegInf => a
  | Fin x, Fin y => Fin (Qcmax x y)
  end.

(** [e + q] and [q / e] for a finite [q]. *)
Definition ext_add (e : ext) (q : Qc) : ext :=
  match e with
  | NegInf => NegInf
  | Fin x => Fin (x + q)%Qc
  end.
Definition div_ext (q : Qc) (e : ext) : Qc :=
  match e with
  | NegInf => 0%Qc
  | Fin d => (q / d)%Qc
  end.

(** [tf.reduce_max(v, axis=0)] on a vector of floats. *)
Definition reduce_max (v : list Qc) : ext :=
  foldr (λ x acc, ext_max (Fin x) acc) NegInf v.

(** ** [_trim] *)

(** The indices are [int32] in the source and integers here.  The two
    agree when the length of the audio and the window size fit in [int32]:
    none of the values computed then leaves the [int32] range (lemma
    [trim_int32_range] below).  Beyond that range the source wraps around,
    which this definition does not follow: a statement that gives the
    result of [_trim] for a window not bounded by the audio carries the
    range as a hypothesis. *)
Definition _trim (audio : list Qc) (window_size : Z) (bits : Z)
    : option (list Qc * Z * Z) :=
  let max_start_index := Z.of_nat (length audio) - window_size in
  let max_start_index := Z.max max_start_index 1 in
  let start_index := random_uniform_int 0 max_start_index bits in
  let end_index := start_index + window_size in
  let trimmed := slice audio start_index (start_index + window_size) in
  let pad_length := window_size - Z.of_nat (length trimmed) in
  trimmed ← pad_right trimmed pad_length;
  trimmed ← reshape1 trimmed window_size;
  Some (trimmed, start_index, end_index).

(** ** [_normalize_audio] *)

(** The epsilon [0.01]. *)
Definition eps : Qc := Q2Qc (1 # 100).

(** [max_gain] and [gain_scalar] have shape [[1]] in the source
    ([keepdims=True]) and broadcast like scalars; they are scalars here. *)
Definition _normalize_audio (audio : list Qc) (target_gain : Qc)
    : list Qc * Qc :=
  let max_gain := reduce_max (map Qcabs audio) in
  let gain_scalar := div_ext target_gain (ext_add max_gain eps) in
  let audio := map (λ x, x * gain_scalar)%Qc audio in
  (audio, gain_scalar).

(** ** [process_audio] *)

Definition sample_rate_of (f : feature) : option Z :=
  match f with Audio sr => Some sr | _ => None end.

Definition process_audio (example : record) (info : DatasetInfo)
    (window_size_s : Z) (min_gain max_gain : Qc) (bits : Z) (u : Qc)
    : option record :=
  audio ← example !! "audio" ≫= as_flt1;
  sample_rate ← features_lookup (features info) "audio" ≫= sample_rate_of;
  '(trimmed, start_ind, end_ind) ←
    _trim audio (window_size_s * sample_rate) bits;
  let example := <["audio" := Flt1 trimmed]> example in
  audio ← example !! "audio" ≫= as_flt1;
  let '(normalized, gain_scalar) :=
    _normalize_audio audio (random_uniform min_gain max_gain u) in
  let example := <["audio" := Flt1 normalized]> example in
  source_audio ← example !! "source_audio" ≫= as_flt2;
  let example :=
    <["source_audio" :=
        Flt2 (map (λ row, map (λ x, x * gain_scalar)%Qc
                            (slice row start_ind end_ind)) source_audio)]>
      example in
  Some example.

(** ** [multi_hot] *)

(** [del example[key]] : a missing key is an error. *)
Definition del (example : record) (key : string) : option record :=
  _ ← example !! key; Some (delete key example).

(** [tf.one_hot(indices, depth, dtype=tf.int32)] on a vector of indices:
    one row per index; an index outside [[0, depth)] gives a zero row. *)
Definition one_hot (indices : list Z) (depth : nat) : list (list Z) :=
  map (λ i, map (λ j, if bool_decide (i = Z.of_nat j) then 1 else 0)
              (seq 0 depth)) indices.

(** [tf.reduce_sum(m, axis=0)] on a matrix with [depth] columns. *)
Definition reduce_sum_axis0 (depth : nat) (m : list (list Z)) : list Z :=
  foldr (zip_with Z.add) (replicate depth 0) m.

(** [tf.clip_by_value(v, lo, hi)] : [maximum(minimum(v, hi), lo)]. *)
Definition clip_by_value (v : list Z) (lo hi : Z) : list Z :=
  map (λ x, Z.max (Z.min x hi) lo) v.

(** The body of the loop over [info.features.items()]. *)
Definition multi_hot_field (example : record) (key : string) (feature : feature)
    : option record :=
  match feature with
  | Sequence (ClassLabel num_classes) =>
      indices ← example !! key ≫= as_int1;
      Some (<[key :=
                Int1 (clip_by_value
                        (reduce_sum_axis0 num_classes
                           (one_hot indices num_classes)) 0 1)]> example)
  | _ => Some example
  end.

Fixpoint multi_hot_loop (example : record) (items : list (string * feature))
    : option record :=
  match items with
  | [] => Some example
  | (key, feature) :: rest =>
      example ← multi_hot_field example key feature;
      multi_hot_loop example rest
  end.

(** [t[tf.newaxis, ...]] *)
Definition expand_dims (t : tensor) : option tensor :=
  match t with
  | Str0 s => Some (Str1 [s])
  | Int0 z => Some (Int1 [z])
  | Int1 v => Some (Int2 [v])
  | Flt0 x => Some (Flt1 [x])
  | Flt1 v => Some (Flt2 [v])
  | Flt2 m => Some (Flt3 [m])
  | _ => None   (* ranks beyond the ones modelled *)
  end.

Definition multi_hot (example : record) (info : DatasetInfo) : option record :=
  example ← del example "filename";
  example ← del example "label_str";
  example ← multi_hot_loop example (features info);
  audio ← example !! "audio";
  source_audio ← expand_dims audio;
  Some (<["source_audio" := source_audio]> example).

(** ** Batching *)

Definition as_str0 (t : tensor) : option string :=
  match t with Str0 s => Some s | _ => None end.
Definition as_int0 (t : tensor) : option Z :=
  match t with Int0 z => Some z | _ => None end.
Definition as_flt0 (t : tensor) : option Qc :=
  match t with Flt0 x => Some x | _ => None end.

(** Stacking the values of one field along a new leading axis.  All of
    them must have the dtype, rank and shape of the first. *)
Definition stack_tensors (ts : list tensor) : option tensor :=
  match ts with
  | [] => None
  | Str0 _ :: _ => Str1 <$> mapM as_str0 ts
  | Int0 _ :: _ => Int1 <$> mapM as_int0 ts
  | Int1 v :: _ =>
      rows ← mapM as_int1 ts;
      if decide (Forall (λ r, length r = length v) rows)
      then Some (Int2 rows) else None
  | Flt0 _ :: _ => Flt1 <$> mapM as_flt0 ts
  | Flt1 v :: _ =>
      rows ← mapM as_flt1 ts;
      if decide (Forall (λ r, length r = length v) rows)
      then Some (Flt2 rows) else None
  | Flt2 m :: _ =>
      mats ← mapM as_flt2 ts;
      if decide (Forall (λ m', length <$> m' = length <$> m) mats)
      then Some (Flt3 mats) else None
  | _ => None   (* ranks beyond the ones modelled *)
  end.

(** The values of field [key] across the elements of a batch. *)
Definition column (key : string) (es : list record) : option (list tensor) :=
  mapM (λ e : record, e !! key) es.

(** One batch: every field of the elements stacked.  The elements must
    have the same fields, with stackable values. *)
Definition stack_examples (es : list record) : option record :=
  e0 ← head es;
  if decide (Forall (λ e : record, dom e = dom e0) es ∧
             map_Forall (λ key _, is_Some (column key es ≫= stack_tensors)) e0)
  then Some (map_imap (λ key _, column key es ≫= stack_tensors) e0 : record)
  else None.

(** [dataset.batch(batch_size, drop_remainder=True)] : [buffer] holds the
    elements of the batch being filled; what is left in it at the end of
    the input is dropped. *)
Fixpoint batch_from (batch_size : nat) (buffer : list record)
    (dataset : list record) : option (list record) :=
  match dataset with
  | [] => Some []
  | x :: rest =>
      let buffer := buffer ++ [x] in
      if (length buffer =? batch_size)%nat then
        b ← stack_examples buffer;
        bs ← batch_from batch_size [] rest;
        Some (b :: bs)
      else batch_from batch_size buffer rest
  end.

Definition batch (batch_size : nat) (dataset : list record)
    : option (list record) :=
  batch_from batch_size [] dataset.

(** ** [mix_audio] *)

(** A Python [int] used as a float divisor. *)
Definition Qc_of_nat (n : nat) : Qc := Q2Qc (inject_Z (Z.of_nat n)).

(** [tf.zeros_like] on a rank-3 tensor. *)
Definition zeros_like (c : list (list (list Qc))) : list (list (list Qc)) :=
  map (map (map (λ _, 0%Qc))) c.

(** [tf.reduce_max(t, axis=0)] on the first axis of a non-empty tensor. *)
Definition reduce_max_axis0 (t : tensor) : option tensor :=
  match t with
  | Int1 (x :: xs) => Some (Int0 (foldl Z.max x xs))
  | Int2 (r :: rs) => Some (Int1 (foldl (zip_with Z.max) r rs))
  | Flt1 (x :: xs) => Some (Flt0 (foldl Qcmax x xs))
  | Flt2 (r :: rs) => Some (Flt1 (foldl (zip_with Qcmax) r rs))
  | _ => None
  end.

(** [tf.reduce_mean(m, axis=0)] on a non-empty matrix. *)
Definition reduce_mean_axis0 (m : list (list Qc)) : option (list Qc) :=
  match m with
  | [] => None
  | r :: rs =>
      Some (map (λ x, x / Qc_of_nat (length m))%Qc (foldl (zip_with Qcplus) r rs))
  end.

(** The loop [for key in (...): examples[key] = tf.reduce_max(examples[key], axis=0)]. *)
Fixpoint reduce_labels (examples : record) (keys : list string) : option record :=
  match keys with
  | [] => Some examples
  | key :: rest =>
      t ← examples !! key;
      t ← reduce_max_axis0 t;
      reduce_labels (<[key := t]> examples) rest
  end.

Definition label_keys : list string :=
  ["label"; "genus"; "family"; "order"; "bg_labels"].

Definition _mix_audio (examples : record) : option record :=
  source_audio ← examples !! "source_audio" ≫= as_flt3;
  let source_audio :=
    if (length source_audio =? 1)%nat
    then source_audio ++ zeros_like source_audio
    else source_audio in
  (* Remove the dummy batch dimension added by multi_hot. *)
  source_audio ← mapM (λ m : list (list Qc), m !! 0%nat) source_audio;
  let examples := <["source_audio" := Flt2 source_audio]> examples in
  examples ← reduce_labels examples label_keys;
  (* Scale source_audio to match gain in the mixed audio. *)
  source_audio ← examples !! "source_audio" ≫= as_flt2;
  audio ← examples !! "audio" ≫= as_flt2;
  let examples :=
    <["source_audio" :=
        Flt2 (map (map (λ x, x / Qc_of_nat (length audio))%Qc) source_audio)]>
      examples in
  audio ← examples !! "audio" ≫= as_flt2;
  audio ← reduce_mean_axis0 audio;
  Some (<["audio" := Flt1 audio]> examples).

(** [key_func] : [u] is the draw of [tf.random.uniform([])]. *)
Definition key_func (mixin_prob : Qc) (u : Qc) : Z :=
  if decide (u < mixin_prob)%Qc then 1 else 0.

(** [reduce_func].  [Dataset.map] traces [_mix_audio] on the element
    specification when the dataset is built, before any batch exists; here
    [_mix_audio] runs on the batches.  The two agree on windows of records
    that [_mix_audio] can process (records that can be batched and have the
    fields it reads); on a window of other records that yields no batch the
    source raises where this definition returns no record. *)
Definition reduce_func (key : Z) (dataset : list record) : option (list record) :=
  if key =? 0
  then batch 1 dataset ≫= mapM _mix_audio
  else batch 2 dataset ≫= mapM _mix_audio.

(** *** [tf.data.Dataset.group_by_window]

    A model of the library operation [mix_audio] ends with.
    The open windows are kept by ascending key.  An element joins the
    window of its key; a window that reaches [window_size] elements is
    reduced and its results are emitted; at the end of the input the
    windows still open are reduced, by ascending key. *)
Fixpoint window_add (key : Z) (x : record) (windows : list (Z * list record))
    : list (Z * list record) :=
  match windows with
  | [] => [(key, [x])]
  | (k, w) :: rest =>
      if key <? k then (key, [x]) :: windows
      else if key =? k then (k, w ++ [x]) :: rest
      else (k, w) :: window_add key x rest
  end.

Fixpoint window_get (key : Z) (windows : list (Z * list record))
    : list record :=
  match windows with
  | [] => []
  | (k, w) :: rest => if key =? k then w else window_get key rest
  end.

Definition window_erase (key : Z) (windows : list (Z * list record))
    : list (Z * list record) :=
  List.filter (λ kw, negb (key =? kw.1)) windows.

Fixpoint flush_windows (reduce_func : Z → list record → option (list record))
    (windows : list (Z * list record)) : option (list record) :=
  match windows with
  | [] => Some []
  | (k, w) :: rest =>
      out ← reduce_func k w;
      more ← flush_windows reduce_func rest;
      Some (out ++ more)
  end.

Fixpoint group_by_window_from (reduce_func : Z → list record → option (list record))
    (window_size : nat) (windows : list (Z * list record))
    (input : list (Z * record)) : option (list record) :=
  match input with
  | [] => flush_windows reduce_func windows
  | (key, x) :: rest =>
      let windows := window_add key x windows in
      let w := window_get key windows in
      if (length w =? window_size)%nat then
        out ← reduce_func key w;
        more ← group_by_window_from reduce_func window_size
                  (window_erase key windows) rest;
        Some (out ++ more)
      else group_by_window_from reduce_func window_size windows rest
  end.

(** [keyed] pairs every element with the key [key_func] gave it. *)
Definition group_by_window (keyed : list (Z * record))
    (reduce_func : Z → list record → option (list record))
    (window_size : nat) : option (list record) :=
  group_by_window_from reduce_func window_size [] keyed.

(** [draws i] is the uniform draw [key_func] makes for element [i]. *)
Definition mix_audio (dataset : list record) (mixin_prob : Qc)
    (draws : nat → Qc) : option (list record) :=
  group_by_window
    (imap (λ i x, (key_func mixin_prob (draws i), x)) dataset)
    reduce_func 2.

(** ** Notions used to state the properties *)

(** [m] is the largest absolute value of the samples of [v]. *)
Definition is_max_abs (v : list Qc) (m : Qc) : Prop :=
  (∃ x, x ∈ v ∧ Qcabs x = m) ∧ ∀ x, x ∈ v → (Qcabs x ≤ m)%Qc.

(** A multi-hot vector has its entries in {0, 1}. *)
Definition is_multi_hot (v : list Z) : Prop :=
  Forall (λ b, b = 0 ∨ b = 1) v.

(** The number of entries of [v] that are set. *)
Definition set_bits (v : list Z) : nat := length (filter (λ b, b = 1) v).

(** The classes of a vocabulary of [n] classes that occur in [indices]. *)
Definition classes_present (indices : list Z) (n : nat) : gset Z :=
  list_to_set (filter (λ c, 0 ≤ c < Z.of_nat n) indices).

(** A single-source record, as [multi_hot] produces them: [audio] is a
    waveform [a], [source_audio] is [a] under a leading axis of size 1, and
    the label fields hold multi-hot vectors. *)
Definition single_source (e : record) (a : list Qc) (labels : string → list Z)
    : Prop :=
  e !! "audio" = Some (Flt1 a) ∧
  e !! "source_audio" = Some (Flt2 [a]) ∧
  ∀ key, key ∈ label_keys →
    e !! key = Some (Int1 (labels key)) ∧ is_multi_hot (labels key).

(** The vector held by field [key] of [e]. *)
Definition labels_of (e : record) (key : string) : list Z :=
  default [] (e !! key ≫= as_int1).

(** ** Sample inputs *)

Definition clip3 : list Qc := [Q2Qc 1; Q2Qc (-2); Q2Qc 3].

(** A schema, a raw record of that schema, and a record as it leaves the
    mixer. *)
Definition info0 : DatasetInfo :=
  {| features :=
       [("audio", Audio 2); ("filename", Text); ("label_str", Text);
        ("label", Sequence (ClassLabel 3));
        ("bg_labels", Sequence (ClassLabel 3));
        ("genus", Sequence (ClassLabel 2))] |}.

Definition raw0 : record :=
  {[ "audio" := Flt1 clip3;
     "filename" := Str0 "XC1.wav";
     "label_str" := Str0 "amecro";
     "label" := Int1 [1];
     "bg_labels" := Int1 [2; 0; 2];
     "genus" := Int1 [] ]}.

Definition mixed0 : record :=
  {[ "audio" := Flt1 clip3;
     "source_audio" := Flt2 [clip3; [0%Qc; 0%Qc; 0%Qc]];
     "label" := Int1 [1; 0; 0] ]}.

(** Two single-source records. *)
Definition rec1 : record :=
  {[ "audio" := Flt1 [Q2Qc 1; Q2Qc 2];
     "source_audio" := Flt2 [[Q2Qc 1; Q2Qc 2]];
     "label" := Int1 [1; 0; 0]; "genus" := Int1 [1; 0];
     "family" := Int1 [1]; "order" := Int1 [1];
     "bg_labels" := Int1 [0; 0; 1] ]}.

Definition rec2 : record :=
  {[ "audio" := Flt1 [Q2Qc 3; Q2Qc 5];
     "source_audio" := Flt2 [[Q2Qc 3; Q2Qc 5]];
     "label" := Int1 [0; 1; 0]; "genus" := Int1 [0; 1];
     "family" := Int1 [1]; "order" := Int1 [1];
     "bg_labels" := Int1 [0; 0; 0] ]}.


(** ** Notions used to state further properties *)

(** The windows [group_by_window] has open when its keys are 0 and 1 and
    its window size is 2: at most one record waiting for each key. *)
Definition open_windows (p0 p1 : option record) : list (Z * list record) :=
  (match p0 with Some a => [(0, [a])] | None => [] end) ++
  (match p1 with Some b => [(1, [b])] | None => [] end).

(** The keys [key_func] draws for the records of a stream of [n] records. *)
Definition drawn_keys (mixin_prob : Qc) (draws : nat → Qc) (n : nat) : list Z :=
  map (λ i, key_func mixin_prob (draws i)) (seq 0 n).

(** How many of the [keys] are [k]. *)
Definition count_key (k : Z) (keys : list Z) : nat :=
  length (filter (λ k', k' = k) keys).

End Pipeline.

(* ===================================================================== *)
(** * Properties of filter_scrub_utils.py *)
(* ===================================================================== *)

Module FilterScrubFacts.
Import FilterScrub.

(** ** List comprehension with a condition *)

Section Comprehension.
Context {A : Type} (keep : A → bool).

Lemma filter_sublist (xs : list A) : List.filter keep xs `sublist_of` xs.
Proof.
  induction xs as [|x xs IH]; simpl; [constructor|].
  destruct (keep x); by constructor.
Qed.

Lemma filter_kept (xs : list A) (x : A) :
  x ∈ List.filter keep xs → keep x = true.
Proof. rewrite list_elem_of_In, filter_In. tauto. Qed.

(** Whatever subsequence consists of kept elements only survives, in
    order and with its repetitions. *)
Lemma filter_greatest (zs xs : list A) :
  zs `sublist_of` xs → (∀ x, x ∈ zs → keep x = true) →
  zs `sublist_of` List.filter keep xs.
Proof.
  induction 1 as [|x zs xs _ IH|x zs xs _ IH]; intros Hall; simpl.
  - constructor.
  - rewrite (Hall x) by left. constructor. apply IH.
    intros y Hy. apply Hall. by right.
  - destruct (keep x); [constructor|]; by apply IH.
Qed.
End Comprehension.

(** ** Heap-independence of scalar membership *)

Lemma contains_scalar_heap (h h' : heap) (values : list value) (x : scalar) :
  contains h values (Scalar x) = contains h' values (Scalar x).
Proof.
  unfold contains. induction values as [|w ws IH]; simpl; [done|].
  rewrite IH. by destruct w.
Qed.

Lemma check_types_ok (T : pytype) (values : list value) :
  (∀ val, val ∈ values → isinstance val T = true) →
  check_types T values = Ok ().
Proof.
  induction values as [|w ws IH]; intros Hall; simpl; [done|].
  rewrite (Hall w) by left. apply IH. intros v Hv. apply Hall. by right.
Qed.

(** ** Allocation *)

Lemma fresh_dict_loc (h : heap) : dicts h !! fresh (dom (dicts h)) = None.
Proof. apply not_elem_of_dom, is_fresh. Qed.

Lemma fresh_list_loc (h : heap) : lists h !! fresh (dom (lists h)) = None.
Proof. apply not_elem_of_dom, is_fresh. Qed.

(** ** [scrub] *)

(** C7.  On a record whose field [key] is a list [xs]:
    when [values] or [xs] is empty, [scrub] returns the very same record
    object and leaves the heap as it is; when both are non-empty and every
    value is an instance of the type of the first element of [xs], it
    returns a record object [fd'] that did not exist before, whose items
    are those of the input except that [key] refers to a newly allocated
    list [ys]; [ys] is the subsequence of [xs] without the elements
    present in [values] (it is a subsequence, none of its elements is in
    [values], and every subsequence of [xs] avoiding [values] is a
    subsequence of [ys], so order and repetitions are kept); every object
    that existed before, the input record included, is unchanged. *)
Theorem scrub_spec (h : heap) (fd : loc) (d : gmap string value)
    (key : string) (l : loc) (xs : list scalar) (values : list value) :
  dicts h !! fd = Some d →
  d !! key = Some (Ref l) →
  lists h !! l = Some xs →
  (values = [] ∨ xs = [] → scrub h fd key values = Ok (h, fd)) ∧
  (∀ x0, values ≠ [] → head xs = Some x0 →
     (∀ val, val ∈ values → isinstance val (type_of_scalar x0) = true) →
     ∃ h' fd' l' ys,
       scrub h fd key values = Ok (h', fd') ∧
       dicts h !! fd' = None ∧
       lists h !! l' = None ∧
       dicts h' !! fd' = Some (<[key := Ref l']> d) ∧
       lists h' !! l' = Some ys ∧
       ys `sublist_of` xs ∧
       (∀ x, x ∈ ys → contains h values (Scalar x) = false) ∧
       (∀ zs, zs `sublist_of` xs →
              (∀ x, x ∈ zs → contains h values (Scalar x) = false) →
              zs `sublist_of` ys) ∧
       (∀ p o, dicts h !! p = Some o → dicts h' !! p = Some o) ∧
       (∀ p o, lists h !! p = Some o → lists h' !! p = Some o)).
Proof.
  intros Hfd Hkey Hl. split.
  - intros Hempty. unfold scrub. rewrite Hfd, Hkey, Hl.
    destruct Hempty as [-> | ->]; simpl; [done|].
    by rewrite orb_true_r.
  - intros x0 Hvalues Hhead Htypes.
    destruct xs as [|x xs']; [done|]. injection Hhead as ->.
    destruct values as [|w ws]; [done|].
    unfold scrub. rewrite Hfd, Hkey, Hl.
    change ((length (w :: ws) =? 0)%nat || (length (x0 :: xs') =? 0)%nat)
      with false. cbv iota.
    rewrite (check_types_ok _ _ Htypes).
    unfold dict_copy, list_alloc, dict_setitem; cbn [mbind result_bind dicts lists].
    set (fd' := fresh (dom (dicts h))).
    set (l' := fresh (dom (lists h))).
    set (h1 := Heap _ (lists h)).
    set (keep := λ x, negb (contains h1 (w :: ws) (Scalar x))).
    assert (Hkeep : ∀ x, keep x = true ↔ contains h (w :: ws) (Scalar x) = false).
    { intros y. unfold keep. rewrite (contains_scalar_heap h1 h).
      by rewrite negb_true_iff. }
    eexists _, fd', l', (List.filter keep (x0 :: xs')).
    split; [reflexivity|]. cbn [dicts lists].
    split; [apply fresh_dict_loc|].
    split; [apply fresh_list_loc|].
    split. { rewrite lookup_alter_eq, lookup_insert_eq. done. }
    split. { by rewrite lookup_insert_eq. }
    split; [apply filter_sublist|].
    split. { intros y Hy. by apply Hkeep, (filter_kept keep (x0 :: xs')). }
    split. { intros zs Hsub Hzs. apply filter_greatest; [done|].
             intros y Hy. by apply Hkeep, Hzs. }
    split.
    + intros p o Hp.
      assert (fd' ≠ p) by (intros <-; unfold fd' in Hp; by rewrite fresh_dict_loc in Hp).
      by rewrite lookup_alter_ne, lookup_insert_ne.
    + intros p o Hp.
      assert (l' ≠ p) by (intros <-; unfold l' in Hp; by rewrite fresh_list_loc in Hp).
      by rewrite lookup_insert_ne.
Qed.


Lemma scrub_spec_witness :
  ∃ h' fd' l' ys,
    scrub heap0 1%positive "bg_labels" [Scalar (PyStr "unknown")] = Ok (h', fd') ∧
    dicts heap0 !! fd' = None ∧
    lists heap0 !! l' = None ∧
    dicts h' !! fd' =
      Some (<["bg_labels" := Ref l']>
              ({[ "filename" := Scalar (PyStr "XC1.wav");
                  "bg_labels" := Ref 1%positive ]} : gmap string value)) ∧
    lists h' !! l' = Some ys ∧
    ys `sublist_of` [PyStr "amecro"; PyStr "unknown"; PyStr "amecro";
                     PyStr "houspa"] ∧
    (∀ x, x ∈ ys →
       contains heap0 [Scalar (PyStr "unknown")] (Scalar x) = false) ∧
    (∀ zs, zs `sublist_of` [PyStr "amecro"; PyStr "unknown"; PyStr "amecro";
                            PyStr "houspa"] →
       (∀ x, x ∈ zs →
          contains heap0 [Scalar (PyStr "unknown")] (Scalar x) = false) →
       zs `sublist_of` ys) ∧
    (∀ p o, dicts heap0 !! p = Some o → dicts h' !! p = Some o) ∧
    (∀ p o, lists heap0 !! p = Some o → lists h' !! p = Some o).
Proof.
  refine (proj2 (scrub_spec heap0 1%positive _ "bg_labels" 1%positive _
                   [Scalar (PyStr "unknown")] _ _ _)
            (PyStr "amecro") _ _ _).
  - reflexivity.
  - reflexivity.
  - reflexivity.
  - discriminate.
  - reflexivity.
  - intros val Hval. apply list_elem_of_singleton in Hval. subst val.
    reflexivity.
Defined.

(** ** Errors *)


(** At a record that lacks the key, neither function raises [KeyError]. *)
Lemma missing_key_not_KeyError :
  not_in heap1 1%positive "genus" [] ≠ Raise KeyError ∧
  scrub heap1 1%positive "genus" [] ≠ Raise KeyError.
Proof. split; intros H; vm_compute in H; discriminate. Qed.

(** C8 (amended).  When the key is absent from the record, [not_in] and
    [scrub] both raise [ValueError], whatever the values are. *)
Theorem missing_key_raises_ValueError (h : heap) (fd : loc)
    (d : gmap string value) (key : string) (values : list value) :
  dicts h !! fd = Some d →
  d !! key = None →
  not_in h fd key values = Raise ValueError ∧
  scrub h fd key values = Raise ValueError.
Proof.
  intros Hfd Hkey. unfold not_in, scrub. by rewrite Hfd, Hkey.
Qed.

Lemma missing_key_raises_ValueError_witness :
  not_in heap1 1%positive "genus" [Scalar (PyInt 1)] = Raise ValueError ∧
  scrub heap1 1%positive "genus" [Scalar (PyInt 1)] = Raise ValueError.
Proof.
  apply (missing_key_raises_ValueError heap1 1%positive
           {[ "label" := Scalar (PyInt 3) ]}); reflexivity.
Defined.

(** The other two kinds of error: a value of the wrong type is a
    [TypeError], a field that is not a list is a [ValueError]. *)
Lemma check_types_mismatch (T : pytype) (values : list value) (val : value) :
  val ∈ values → isinstance val T = false →
  check_types T values = Raise TypeError.
Proof.
  induction values as [|w ws IH]; intros Hin Hval; [by apply elem_of_nil in Hin|].
  simpl. apply elem_of_cons in Hin as [<- | Hin]; [by rewrite Hval|].
  destruct (isinstance w T); [by apply IH | done].
Qed.

Lemma scrub_not_a_list (h : heap) (fd : loc) (d : gmap string value)
    (key : string) (s : scalar) (values : list value) :
  dicts h !! fd = Some d → d !! key = Some (Scalar s) →
  scrub h fd key values = Raise ValueError.
Proof. intros Hfd Hkey. unfold scrub. by rewrite Hfd, Hkey. Qed.

End FilterScrubFacts.

(* ===================================================================== *)
(** * Properties of pipeline.py *)
(* ===================================================================== *)

Module PipelineFacts.
Import Pipeline.
Local Open Scope Z_scope.

(** ** Slices *)

Section Slice.
Context {A : Type}.
Implicit Types (l : list A) (b e : Z).

Lemma take_beyond l (n m : nat) :
  (length l ≤ n)%nat → (length l ≤ m)%nat → take n l = take m l.
Proof. intros Hn Hm. by rewrite !take_ge. Qed.

(** With a start inside the sequence and a non-negative width, a slice
    is a [drop] followed by a [take]. *)
Lemma slice_take_drop l b (w : Z) :
  0 ≤ b ≤ Z.of_nat (length l) → 0 ≤ w →
  slice l b (b + w) = take (Z.to_nat w) (drop (Z.to_nat b) l).
Proof.
  intros Hb Hw. unfold slice, clamp_index.
  replace (b <? 0) with false by (symmetry; apply Z.ltb_ge; lia).
  replace (b + w <? 0) with false by (symmetry; apply Z.ltb_ge; lia).
  replace (Z.max 0 (Z.min (Z.of_nat (length l)) b)) with b by lia.
  destruct (decide (b + w ≤ Z.of_nat (length l))) as [Hle|Hgt].
  - f_equal. lia.
  - apply take_beyond; rewrite length_drop; lia.
Qed.

Lemma slice_length l b (w : Z) :
  0 ≤ b ≤ Z.of_nat (length l) → 0 ≤ w →
  Z.of_nat (length (slice l b (b + w))) = Z.min w (Z.of_nat (length l) - b).
Proof.
  intros Hb Hw. rewrite slice_take_drop by done.
  rewrite length_take, length_drop. lia.
Qed.

(** Element [j] of [l[b:e]] is element [b + j] of [l], as long as
    [b + j < e]. *)
Lemma slice_lookup l b e (j : nat) :
  0 ≤ b → 0 ≤ e →
  slice l b e !! j =
    if decide (b + Z.of_nat j < e) then l !! (Z.to_nat b + j)%nat else None.
Proof.
  intros Hb He. unfold slice, clamp_index.
  replace (b <? 0) with false by (symmetry; apply Z.ltb_ge; lia).
  replace (e <? 0) with false by (symmetry; apply Z.ltb_ge; lia).
  set (len := Z.of_nat (length l)).
  destruct (decide (b + Z.of_nat j < e)) as [Hlt|Hge].
  - destruct (decide (Z.of_nat j < Z.max 0 (Z.min len e) - Z.max 0 (Z.min len b))).
    + rewrite lookup_take_lt by lia. rewrite lookup_drop. f_equal. lia.
    + rewrite lookup_take_ge by lia. symmetry. apply lookup_ge_None. lia.
  - apply lookup_take_ge. lia.
Qed.
End Slice.

(** ** [_trim] *)

Lemma random_uniform_int_range (maxval bits : Z) :
  0 < maxval → 0 ≤ random_uniform_int 0 maxval bits < maxval.
Proof.
  intros Hmax. unfold random_uniform_int. rewrite Z.sub_0_r.
  pose proof (Z.mod_pos_bound bits maxval Hmax). lia.
Qed.

(** The run of [_trim] on a window size that is not negative: the start
    index drawn, the slice extracted, and the padded result. *)
Lemma trim_run (audio : list Qc) (window_size bits : Z) :
  0 ≤ window_size →
  ∃ start_index extracted,
    0 ≤ start_index < Z.max (Z.of_nat (length audio) - window_size) 1 ∧
    extracted = take (Z.to_nat window_size) (drop (Z.to_nat start_index) audio) ∧
    _trim audio window_size bits =
      Some (extracted ++ replicate (Z.to_nat window_size - length extracted) 0%Qc,
            start_index, start_index + window_size).
Proof.
  intros Hws. unfold _trim.
  set (L := Z.of_nat (length audio)).
  set (start_index := random_uniform_int 0 (Z.max (L - window_size) 1) bits).
  assert (Hstart : 0 ≤ start_index < Z.max (L - window_size) 1)
    by (apply random_uniform_int_range; lia).
  assert (Hin : 0 ≤ start_index ≤ L) by lia.
  pose proof (slice_length audio start_index window_size Hin Hws) as Hlen.
  rewrite (slice_take_drop audio start_index window_size Hin Hws) in *.
  set (extracted := take _ _) in *.
  unfold pad_right.
  replace (window_size - Z.of_nat (length extracted) <? 0) with false
    by (symmetry; apply Z.ltb_ge; lia).
  cbn [mbind option_bind]. unfold reshape1.
  rewrite (bool_decide_eq_true_2 (window_size = Z.of_nat _)).
  2:{ rewrite length_app, length_replicate. lia. }
  rewrite orb_true_r. cbn [mbind option_bind].
  exists start_index, extracted. split; [done|]. split; [done|].
  by replace (Z.to_nat (window_size - Z.of_nat (length extracted)))
    with (Z.to_nat window_size - length extracted)%nat by lia.
Qed.

(** None of the [int32] values [_trim] computes leaves the [int32] range,
    for a tensor and a window size that fit in it; hence the indices are
    integers without wrap-around in [_trim]. *)
Lemma trim_int32_range (audio : list Qc) (window_size bits : Z) :
  let L := Z.of_nat (length audio) in
  let start_index := random_uniform_int 0 (Z.max (L - window_size) 1) bits in
  0 ≤ window_size < 2 ^ 31 → L < 2 ^ 31 →
  - 2 ^ 31 ≤ L - window_size < 2 ^ 31 ∧
  0 ≤ start_index < 2 ^ 31 ∧
  0 ≤ start_index + window_size < 2 ^ 31 ∧
  0 ≤ window_size
      - Z.of_nat (length (slice audio start_index (start_index + window_size)))
    < 2 ^ 31.
Proof.
  intros L start_index Hws HL.
  assert (Hstart : 0 ≤ start_index < Z.max (L - window_size) 1)
    by (apply random_uniform_int_range; lia).
  rewrite slice_length by lia. fold L. lia.
Qed.

(** C3.  For a window size that is a size and fits in [int32]
    ([0 ≤ window_size < 2^31]) and an audio whose length fits in [int32],
    whatever the random bits, [_trim] returns a sequence of exactly
    [window_size] samples, which is the slice of the audio that starts at
    [start_index], followed by zeros when that slice is shorter; the start
    index lies in [[0, max(L - window_size, 1))], the end index is the start
    index plus the window size, and the start index is [0] whenever
    [L ≤ window_size]. *)
Theorem trim_spec (audio : list Qc) (window_size bits : Z) :
  0 ≤ window_size < 2 ^ 31 →
  Z.of_nat (length audio) < 2 ^ 31 →
  ∃ trimmed start_index end_index,
    _trim audio window_size bits = Some (trimmed, start_index, end_index) ∧
    Z.of_nat (length trimmed) = window_size ∧
    (∃ extracted,
       extracted = take (Z.to_nat window_size) (drop (Z.to_nat start_index) audio) ∧
       trimmed = extracted ++
                 replicate (Z.to_nat window_size - length extracted) 0%Qc) ∧
    0 ≤ start_index < Z.max (Z.of_nat (length audio) - window_size) 1 ∧
    end_index = start_index + window_size ∧
    (Z.of_nat (length audio) ≤ window_size → start_index = 0).
Proof.
  intros [Hws _] _.
  destruct (trim_run audio window_size bits Hws)
    as (start_index & extracted & Hstart & Hextracted & Hrun).
  eexists _, start_index, _. split; [exact Hrun|].
  split.
  { rewrite length_app, length_replicate.
    assert (length extracted ≤ Z.to_nat window_size)%nat
      by (rewrite Hextracted, length_take; lia).
    lia. }
  split; [by exists extracted|].
  split; [done|]. split; [done|]. lia.
Qed.

Lemma trim_spec_witness :
  ∃ trimmed start_index end_index,
    _trim clip3 5 7 = Some (trimmed, start_index, end_index) ∧
    Z.of_nat (length trimmed) = 5 ∧
    (∃ extracted,
       extracted = take (Z.to_nat 5) (drop (Z.to_nat start_index) clip3) ∧
       trimmed = extracted ++ replicate (Z.to_nat 5 - length extracted) 0%Qc) ∧
    0 ≤ start_index < Z.max (Z.of_nat (length clip3) - 5) 1 ∧
    end_index = start_index + 5 ∧
    (Z.of_nat (length clip3) ≤ 5 → start_index = 0).
Proof. apply (trim_spec clip3 5 7); simpl; lia. Defined.

(** A negative window size is an error: the padding would be negative. *)
Lemma trim_negative_window (audio : list Qc) (window_size bits : Z) :
  window_size < 0 → _trim audio window_size bits = None.
Proof.
  intros Hws. unfold _trim, pad_right.
  match goal with |- context [?x <? 0] =>
    replace (x <? 0) with true by (symmetry; apply Z.ltb_lt; lia) end.
  done.
Qed.

(** ** Rational arithmetic *)

Local Open Scope Qc_scope.

Lemma this_Q2Qc (q : Q) : (this (Q2Qc q) == q)%Q.
Proof. apply Qred_correct. Qed.

Ltac to_Q :=
  unfold Qcabs, Qcdiv, Qcminus, Qcle, Qclt, Qcplus, Qcmult, Qcopp, Qcinv in *;
  repeat rewrite this_Q2Qc in *.

Lemma Qcabs_nonneg (x : Qc) : 0 ≤ Qcabs x.
Proof. to_Q. apply Qabs_nonneg. Qed.

Lemma Qcabs_mult (x y : Qc) : Qcabs (x * y) = Qcabs x * Qcabs y.
Proof. apply Qc_is_canon. to_Q. apply Qabs_Qmult. Qed.

Lemma Qcabs_of_nonneg (x : Qc) : 0 ≤ x → Qcabs x = x.
Proof. intros H. apply Qc_is_canon. to_Q. by apply Qabs_pos. Qed.

Lemma Qcinv_nonneg (x : Qc) : 0 < x → 0 ≤ / x.
Proof. intros H. to_Q. by apply Qlt_le_weak, Qinv_lt_0_compat. Qed.

Lemma eps_pos : 0 < eps.
Proof. reflexivity. Qed.

Lemma Qcmax_r (x y : Qc) : y ≤ Qcmax x y.
Proof.
  unfold Qcmax. case_decide as H; [done|].
  by apply Qclt_le_weak, Qcnot_le_lt.
Qed.

Lemma Qcmax_l (x y : Qc) : x ≤ Qcmax x y.
Proof. unfold Qcmax. by case_decide. Qed.

Lemma Qcmax_cases (x y : Qc) : Qcmax x y = x ∨ Qcmax x y = y.
Proof. unfold Qcmax. case_decide; auto. Qed.

(** ** [_normalize_audio] *)

(** On a non-empty vector [tf.reduce_max] is finite, is reached by an
    element and bounds every element. *)
Lemma reduce_max_spec (v : list Qc) :
  v ≠ [] →
  ∃ m, reduce_max v = Fin m ∧ m ∈ v ∧ ∀ x, x ∈ v → x ≤ m.
Proof.
  induction v as [|x v IH]; [done|]. intros _. simpl.
  destruct v as [|y v'].
  - exists x. simpl. split; [done|]. split; [left|].
    intros z Hz. apply list_elem_of_singleton in Hz. by subst.
  - destruct IH as (m & -> & Hin & Hmax); [done|].
    exists (Qcmax x m). split; [done|]. split.
    + destruct (Qcmax_cases x m) as [-> | ->]; [left | by right].
    + intros z Hz. apply elem_of_cons in Hz as [-> | Hz]; [apply Qcmax_l|].
      eapply Qcle_trans; [by apply Hmax | apply Qcmax_r].
Qed.

Lemma reduce_max_abs (audio : list Qc) :
  audio ≠ [] →
  ∃ m, reduce_max (map Qcabs audio) = Fin m ∧ is_max_abs audio m.
Proof.
  intros Hne.
  destruct (reduce_max_spec (map Qcabs audio)) as (m & Hm & Hin & Hmax).
  { by destruct audio. }
  exists m. split; [done|]. split.
  - apply list_elem_of_fmap in Hin as (x & -> & Hx). by exists x.
  - intros x Hx. apply Hmax, list_elem_of_fmap. by exists x.
Qed.

Lemma is_max_abs_unique (v : list Qc) (m m' : Qc) :
  is_max_abs v m → is_max_abs v m' → m = m'.
Proof.
  intros [(x & Hx & <-) Hm] [(y & Hy & <-) Hm'].
  apply Qcle_antisym; auto.
Qed.

Lemma is_max_abs_nonneg (v : list Qc) (m : Qc) : is_max_abs v m → 0 ≤ m.
Proof. intros [(x & _ & <-) _]. apply Qcabs_nonneg. Qed.

(** Scaling every sample by [s] scales the peak by [|s|]. *)
Lemma is_max_abs_scale (v : list Qc) (m s : Qc) :
  is_max_abs v m → is_max_abs (map (λ x, x * s) v) (Qcabs s * m).
Proof.
  intros [(x & Hx & <-) Hm]. split.
  - exists (x * s). split.
    + apply list_elem_of_fmap. by exists x.
    + rewrite Qcabs_mult. ring.
  - intros y Hy. apply list_elem_of_fmap in Hy as (z & -> & Hz).
    rewrite Qcabs_mult, (Qcmult_comm (Qcabs s)).
    apply Qcmult_le_compat_r; [by apply Hm | apply Qcabs_nonneg].
Qed.

(** C4 (amended).  [_normalize_audio] returns the audio multiplied by
    [scale], together with [scale].  When [max_gain] is the largest
    absolute value of the input, [max_gain + 0.01] is positive,
    [scale = target_gain / (max_gain + 0.01)], and the largest absolute
    value of the output is [|target_gain| * max_gain / (max_gain + 0.01)],
    which is [target_gain * max_gain / (max_gain + 0.01)] when the target
    gain is not negative.  A non-empty input has such a [max_gain].  An
    all-zero input gives an all-zero output. *)
Theorem normalize_audio_spec (audio : list Qc) (target_gain : Qc) :
  ∃ out scale,
    _normalize_audio audio target_gain = (out, scale) ∧
    out = map (λ x, x * scale) audio ∧
    (audio ≠ [] → ∃ max_gain, is_max_abs audio max_gain) ∧
    (∀ max_gain, is_max_abs audio max_gain →
       0 < max_gain + eps ∧
       scale = target_gain / (max_gain + eps) ∧
       is_max_abs out (Qcabs target_gain * max_gain / (max_gain + eps)) ∧
       (0 ≤ target_gain →
        is_max_abs out (target_gain * max_gain / (max_gain + eps)))) ∧
    (Forall (λ x, x = 0) audio → Forall (λ x, x = 0) out).
Proof.
  unfold _normalize_audio. eexists _, _. split; [reflexivity|].
  split; [done|]. split; [|split].
  - intros Hne. destruct (reduce_max_abs audio Hne) as (m & _ & Hm). eauto.
  - intros max_gain Hmax.
    assert (Hne : audio ≠ []).
    { destruct Hmax as [(x & Hx & _) _]. intros ->. by apply elem_of_nil in Hx. }
    destruct (reduce_max_abs audio Hne) as (m & -> & Hm).
    rewrite (is_max_abs_unique _ _ _ Hm Hmax). simpl.
    pose proof (is_max_abs_nonneg _ _ Hmax) as Hnonneg.
    assert (Hpos : 0 < max_gain + eps)
      by (apply Qcplus_nonneg_pos; [done | apply eps_pos]).
    assert (Hpeak : is_max_abs
              (map (λ x, x * (target_gain / (max_gain + eps))) audio)
              (Qcabs target_gain * max_gain / (max_gain + eps))).
    { replace (Qcabs target_gain * max_gain / (max_gain + eps))
        with (Qcabs (target_gain / (max_gain + eps)) * max_gain).
      - by apply is_max_abs_scale.
      - unfold Qcdiv. rewrite Qcabs_mult.
        rewrite (Qcabs_of_nonneg (/ (max_gain + eps))) by by apply Qcinv_nonneg.
        ring. }
    split; [done|]. split; [done|]. split; [done|].
    intros Htg. by rewrite <- (Qcabs_of_nonneg target_gain) at 1.
  - intros Hzero. apply Forall_fmap. revert Hzero. apply Forall_impl.
    intros x ->. simpl. ring.
Qed.

Lemma normalize_audio_spec_witness :
  ∃ out scale,
    _normalize_audio clip3 (Q2Qc 2) = (out, scale) ∧
    0 < Q2Qc 3 + eps ∧
    scale = Q2Qc 2 / (Q2Qc 3 + eps) ∧
    is_max_abs out (Qcabs (Q2Qc 2) * Q2Qc 3 / (Q2Qc 3 + eps)) ∧
    is_max_abs out (Q2Qc 2 * Q2Qc 3 / (Q2Qc 3 + eps)).
Proof.
  destruct (normalize_audio_spec clip3 (Q2Qc 2))
    as (out & scale & Heq & _ & _ & Hmax & _).
  exists out, scale. split; [exact Heq|].
  destruct (Hmax (Q2Qc 3)) as (Hpos & Hscale & Hpeak & Hnonneg).
  - split.
    + exists (Q2Qc 3). split; [|reflexivity].
      right. right. left.
    + intros x Hx. unfold clip3 in Hx.
      repeat (apply elem_of_cons in Hx as [-> | Hx]);
        [discriminate ..|by apply elem_of_nil in Hx].
  - refine (conj Hpos (conj Hscale (conj Hpeak (Hnonneg _)))).
    discriminate.
Defined.

(** With the target gain [-1] and the one-sample audio [[1]], the peak of
    the output is not [target_gain * max_gain / (max_gain + 0.01)], which
    is negative. *)
Lemma normalize_audio_negative_gain :
  is_max_abs [Q2Qc 1] (Q2Qc 1) ∧
  ¬ is_max_abs (_normalize_audio [Q2Qc 1] (Q2Qc (-1))).1
      (Q2Qc (-1) * Q2Qc 1 / (Q2Qc 1 + eps)).
Proof.
  split.
  - split.
    + exists (Q2Qc 1). split; [left | reflexivity].
    + intros x Hx. apply list_elem_of_singleton in Hx. by subst.
  - intros Hpeak. apply is_max_abs_nonneg in Hpeak.
    vm_compute in Hpeak. by apply Hpeak.
Qed.

(** ** [process_audio] *)

(** What [process_audio] computes on a well-formed record, in one
    expression. *)
Lemma process_audio_unfold (example : record) (info : DatasetInfo)
    (window_size_s : Z) (min_gain max_gain : Qc) (bits : Z) (u : Qc)
    (audio : list Qc) (source_audio : list (list Qc)) (sample_rate : Z)
    (trimmed : list Qc) (start_ind end_ind : Z) :
  example !! "audio" = Some (Flt1 audio) →
  example !! "source_audio" = Some (Flt2 source_audio) →
  features_lookup (features info) "audio" = Some (Audio sample_rate) →
  _trim audio (window_size_s * sample_rate) bits
    = Some (trimmed, start_ind, end_ind) →
  let normalized :=
    (_normalize_audio trimmed (random_uniform min_gain max_gain u)).1 in
  let gain_scalar :=
    (_normalize_audio trimmed (random_uniform min_gain max_gain u)).2 in
  process_audio example info window_size_s min_gain max_gain bits u =
    Some (<["source_audio" :=
              Flt2 (map (λ row, map (λ x, x * gain_scalar)
                                  (slice row start_ind end_ind)) source_audio)]>
            (<["audio" := Flt1 normalized]>
               (<["audio" := Flt1 trimmed]> example))).
Proof.
  intros Haudio Hsource Hinfo Htrim. unfold process_audio.
  rewrite Haudio, Hinfo. cbn [mbind option_bind as_flt1 sample_rate_of].
  rewrite Htrim. cbn [mbind option_bind].
  rewrite lookup_insert_eq. cbn [mbind option_bind as_flt1].
  destruct (_normalize_audio trimmed _) as [normalized gain_scalar].
  rewrite !lookup_insert_ne by done. rewrite Hsource. done.
Qed.

(** C5.  On a record with a rank-1 [audio] and a rank-2 [source_audio],
    with a window size and an audio length that fit in [int32],
    [process_audio] crops the audio with [_trim] and scales it with
    [_normalize_audio], every sample of the crop multiplied by the scale;
    every row of the new [source_audio] is the row of the old one
    restricted to the positions [[start_index, end_index)] chosen by that
    call of [_trim], each sample multiplied by the scale returned by that
    call of [_normalize_audio]. *)
Theorem process_audio_same_crop_and_scale (example : record)
    (info : DatasetInfo) (window_size_s : Z) (min_gain max_gain : Qc)
    (bits : Z) (u : Qc) (audio : list Qc) (source_audio : list (list Qc))
    (sample_rate : Z) :
  example !! "audio" = Some (Flt1 audio) →
  example !! "source_audio" = Some (Flt2 source_audio) →
  features_lookup (features info) "audio" = Some (Audio sample_rate) →
  (0 ≤ window_size_s * sample_rate < 2 ^ 31)%Z →
  (Z.of_nat (length audio) < 2 ^ 31)%Z →
  ∃ trimmed start_index end_index normalized scale out rows,
    _trim audio (window_size_s * sample_rate) bits
      = Some (trimmed, start_index, end_index) ∧
    _normalize_audio trimmed (random_uniform min_gain max_gain u)
      = (normalized, scale) ∧
    normalized = map (λ x, x * scale) trimmed ∧
    process_audio example info window_size_s min_gain max_gain bits u
      = Some out ∧
    out !! "audio" = Some (Flt1 normalized) ∧
    out !! "source_audio" = Some (Flt2 rows) ∧
    length rows = length source_audio ∧
    ∀ (i : nat) (row : list Qc), source_audio !! i = Some row →
      ∃ row', rows !! i = Some row' ∧
        ∀ j : nat,
          row' !! j =
            (λ x, x * scale) <$>
              (if decide (start_index + Z.of_nat j < end_index)%Z
               then row !! (Z.to_nat start_index + j)%nat else None).
Proof.
  intros Haudio Hsource Hinfo [Hws _] _.
  destruct (trim_run audio _ bits Hws)
    as (start_index & extracted & Hstart & _ & Htrim).
  set (trimmed := extracted ++ _) in Htrim.
  pose proof (process_audio_unfold example info window_size_s min_gain
                max_gain bits u _ _ _ _ _ _ Haudio Hsource Hinfo Htrim) as Hrun.
  destruct (_normalize_audio trimmed _) as [normalized scale] eqn:Hnorm.
  cbn [fst snd] in Hrun.
  assert (Hnormalized : normalized = map (λ x, x * scale) trimmed).
  { unfold _normalize_audio in Hnorm. by injection Hnorm as <- <-. }
  eexists trimmed, start_index, _, normalized, scale, _, _.
  split; [exact Htrim|]. split; [exact Hnorm|]. split; [exact Hnormalized|].
  split; [exact Hrun|].
  split. { by rewrite lookup_insert_ne, lookup_insert_eq. }
  split. { by rewrite lookup_insert_eq. }
  split. { by rewrite length_map. }
  intros i row Hrow. eexists. split.
  { rewrite list_lookup_fmap, Hrow. reflexivity. }
  intros j. rewrite list_lookup_fmap. f_equal.
  apply slice_lookup; lia.
Qed.

Lemma process_audio_same_crop_and_scale_witness :
  ∃ trimmed start_index end_index normalized scale out rows,
    _trim clip3 (1 * 2) 7 = Some (trimmed, start_index, end_index) ∧
    _normalize_audio trimmed (random_uniform (Q2Qc (1 # 4)) (Q2Qc (1 # 2)) (Q2Qc (1 # 3)))
      = (normalized, scale) ∧
    normalized = map (λ x, x * scale) trimmed ∧
    process_audio mixed0 info0 1 (Q2Qc (1 # 4)) (Q2Qc (1 # 2)) 7 (Q2Qc (1 # 3))
      = Some out ∧
    out !! "audio" = Some (Flt1 normalized) ∧
    out !! "source_audio" = Some (Flt2 rows) ∧
    length rows = length [clip3; [0; 0; 0]] ∧
    ∀ (i : nat) (row : list Qc), [clip3; [0; 0; 0]] !! i = Some row →
      ∃ row', rows !! i = Some row' ∧
        ∀ j : nat,
          row' !! j =
            (λ x, x * scale) <$>
              (if decide (start_index + Z.of_nat j < end_index)%Z
               then row !! (Z.to_nat start_index + j)%nat else None).
Proof.
  apply (process_audio_same_crop_and_scale mixed0 info0 1 (Q2Qc (1 # 4))
           (Q2Qc (1 # 2)) 7 (Q2Qc (1 # 3)) clip3 [clip3; [0; 0; 0]] 2).
  - reflexivity.
  - reflexivity.
  - reflexivity.
  - simpl. lia.
  - simpl. lia.
Defined.

(** C9.  When the audio has fewer samples than the window, a window that
    fits in [int32] (and the rows of [source_audio] have the length [L] of
    the audio), the processed
    [audio] has exactly [window_size] samples, the scaled input followed by
    zeros, while every row of the processed [source_audio] is the whole
    scaled input row, of the original length [L]: the crop [[0, window_size)]
    is clamped to the row and nothing is appended, so the rows are shorter
    than [audio]. *)
Theorem process_audio_short_clip (example : record) (info : DatasetInfo)
    (window_size_s : Z) (min_gain max_gain : Qc) (bits : Z) (u : Qc)
    (audio : list Qc) (source_audio : list (list Qc)) (sample_rate : Z) :
  example !! "audio" = Some (Flt1 audio) →
  example !! "source_audio" = Some (Flt2 source_audio) →
  Forall (λ row, length row = length audio) source_audio →
  features_lookup (features info) "audio" = Some (Audio sample_rate) →
  (Z.of_nat (length audio) < window_size_s * sample_rate < 2 ^ 31)%Z →
  ∃ out scale audio' rows,
    process_audio example info window_size_s min_gain max_gain bits u
      = Some out ∧
    out !! "audio" = Some (Flt1 audio') ∧
    Z.of_nat (length audio') = (window_size_s * sample_rate)%Z ∧
    audio' = map (λ x, x * scale) audio ++
             replicate (Z.to_nat (window_size_s * sample_rate) - length audio) 0 ∧
    out !! "source_audio" = Some (Flt2 rows) ∧
    rows = map (map (λ x, x * scale)) source_audio ∧
    Forall (λ row, length row = length audio ∧ length row ≠ length audio') rows.
Proof.
  intros Haudio Hsource Hrows Hinfo [Hshort _].
  set (window_size := (window_size_s * sample_rate)%Z) in *.
  assert (Hws : (0 ≤ window_size)%Z) by lia.
  destruct (trim_run audio window_size bits Hws)
    as (start_index & extracted & Hstart & Hextracted & Htrim).
  assert (start_index = 0%Z) as -> by lia.
  change (Z.to_nat 0) with 0%nat in Hextracted. rewrite drop_0 in Hextracted.
  rewrite take_ge in Hextracted by lia. subst extracted.
  set (trimmed := audio ++ _) in Htrim.
  assert (Htrimmed : trimmed =
            audio ++ replicate (Z.to_nat window_size - length audio)%nat 0%Qc)
    by done.
  clearbody trimmed.
  pose proof (process_audio_unfold example info window_size_s min_gain
                max_gain bits u _ _ _ _ _ _ Haudio Hsource Hinfo Htrim) as Hrun.
  destruct (_normalize_audio trimmed _) as [normalized scale] eqn:Hnorm.
  cbn [fst snd] in Hrun.
  assert (Hnormalized : normalized = map (λ x, x * scale) trimmed).
  { unfold _normalize_audio in Hnorm. by injection Hnorm as <- <-. }
  eexists _, scale, normalized, (map (map (λ x, x * scale)) source_audio).
  split; [exact Hrun|].
  split. { by rewrite lookup_insert_ne, lookup_insert_eq. }
  assert (Hlen : Z.of_nat (length normalized) = window_size).
  { rewrite Hnormalized, length_map, Htrimmed, length_app, length_replicate.
    lia. }
  split; [exact Hlen|].
  split.
  { rewrite Hnormalized, Htrimmed, map_app. f_equal.
    rewrite (fmap_replicate (λ x, x * scale)). f_equal. ring. }
  split.
  { rewrite lookup_insert_eq. do 2 f_equal.
    apply map_ext_Forall. revert Hrows. apply Forall_impl.
    intros row Hrow. f_equal.
    rewrite slice_take_drop by lia. simpl. apply take_ge. lia. }
  split; [done|].
  apply Forall_fmap. revert Hrows. apply Forall_impl.
  intros row Hrow. simpl. rewrite length_map. split; [done|]. lia.
Qed.

Lemma process_audio_short_clip_witness :
  ∃ out scale audio' rows,
    process_audio mixed0 info0 2 (Q2Qc (1 # 4)) (Q2Qc (1 # 2)) 7 (Q2Qc (1 # 3))
      = Some out ∧
    out !! "audio" = Some (Flt1 audio') ∧
    Z.of_nat (length audio') = (2 * 2)%Z ∧
    audio' = map (λ x, x * scale) clip3 ++
             replicate (Z.to_nat (2 * 2) - length clip3) 0 ∧
    out !! "source_audio" = Some (Flt2 rows) ∧
    rows = map (map (λ x, x * scale)) [clip3; [0; 0; 0]] ∧
    Forall (λ row, length row = length clip3 ∧ length row ≠ length audio') rows.
Proof.
  apply (process_audio_short_clip mixed0 info0 2 (Q2Qc (1 # 4))
           (Q2Qc (1 # 2)) 7 (Q2Qc (1 # 3)) clip3 [clip3; [0; 0; 0]] 2).
  - reflexivity.
  - reflexivity.
  - repeat constructor.
  - reflexivity.
  - simpl. lia.
Defined.

(** ** [multi_hot] *)

Local Open Scope Z_scope.

Lemma one_hot_row_length (i : Z) (depth : nat) :
  length (map (λ j : nat, if bool_decide (i = Z.of_nat j) then 1 else 0)
            (seq 0 depth)) = depth.
Proof. by rewrite length_map, length_seq. Qed.

Lemma reduce_sum_one_hot_length (indices : list Z) (depth : nat) :
  length (reduce_sum_axis0 depth (one_hot indices depth)) = depth.
Proof.
  unfold reduce_sum_axis0, one_hot.
  induction indices as [|i indices IH]; simpl.
  - apply length_replicate.
  - rewrite length_zip_with, IH, one_hot_row_length. lia.
Qed.

(** Column [j] of the sum counts how often class [j] occurs. *)
Lemma reduce_sum_one_hot_lookup (indices : list Z) (depth j : nat) :
  (j < depth)%nat →
  reduce_sum_axis0 depth (one_hot indices depth) !! j =
    Some (Z.of_nat (length (filter (λ i, i = Z.of_nat j) indices))).
Proof.
  intros Hj. unfold reduce_sum_axis0, one_hot.
  induction indices as [|i indices IH]; simpl.
  - by apply lookup_replicate_2.
  - rewrite lookup_zip_with, IH, list_lookup_fmap.
    rewrite lookup_seq_lt by done. simpl.
    rewrite filter_cons. case_bool_decide; case_decide; simpl; try done.
    f_equal. lia.
Qed.

(** The encoding of a sequence of class indices: entry [j] tells whether
    class [j] occurs. *)
Lemma multi_hot_vector_lookup (indices : list Z) (depth j : nat) :
  (j < depth)%nat →
  clip_by_value (reduce_sum_axis0 depth (one_hot indices depth)) 0 1 !! j =
    Some (if decide (Z.of_nat j ∈ indices) then 1 else 0).
Proof.
  intros Hj. unfold clip_by_value.
  rewrite list_lookup_fmap, reduce_sum_one_hot_lookup by done. simpl. f_equal.
  case_decide as Hin.
  - assert (Z.of_nat j ∈ filter (λ i, i = Z.of_nat j) indices) as Hf
      by by apply list_elem_of_filter.
    destruct (filter _ indices); [by apply elem_of_nil in Hf|]. simpl. lia.
  - destruct (filter (λ i, i = Z.of_nat j) indices) as [|x xs] eqn:Hf; [done|].
    assert (x ∈ filter (λ i, i = Z.of_nat j) indices) as Hx by (rewrite Hf; left).
    apply list_elem_of_filter in Hx as [-> Hx]. done.
Qed.

Lemma multi_hot_vector_eq (indices : list Z) (depth : nat) :
  clip_by_value (reduce_sum_axis0 depth (one_hot indices depth)) 0 1 =
    map (λ j : nat, if decide (Z.of_nat j ∈ indices) then 1 else 0) (seq 0 depth).
Proof.
  apply list_eq. intros j.
  destruct (decide (j < depth)%nat) as [Hj|Hj].
  - rewrite multi_hot_vector_lookup by done.
    by rewrite list_lookup_fmap, lookup_seq_lt.
  - rewrite !lookup_ge_None_2; [done| |].
    + rewrite length_map, length_seq. lia.
    + unfold clip_by_value. rewrite length_map, reduce_sum_one_hot_length. lia.
Qed.

Lemma multi_hot_vector_bits (indices : list Z) (depth : nat) :
  is_multi_hot (clip_by_value (reduce_sum_axis0 depth (one_hot indices depth)) 0 1).
Proof.
  rewrite multi_hot_vector_eq. apply Forall_fmap, Forall_forall.
  intros j _. simpl. case_decide; auto.
Qed.

Lemma set_bits_indicator (P : nat → Prop) `{∀ j, Decision (P j)}
    (js : list nat) :
  set_bits (map (λ j, if decide (P j) then 1 else 0) js)
    = length (filter P js).
Proof.
  unfold set_bits. induction js as [|j js IH]; [done|].
  cbn [map]. rewrite !filter_cons.
  destruct (decide (P j)); simpl; [by rewrite IH | exact IH].
Qed.

(** As many set bits as classes of the vocabulary that occur. *)
Lemma multi_hot_vector_set_bits (indices : list Z) (depth : nat) :
  set_bits (clip_by_value (reduce_sum_axis0 depth (one_hot indices depth)) 0 1)
    = size (classes_present indices depth).
Proof.
  rewrite multi_hot_vector_eq.
  rewrite (set_bits_indicator (λ j, Z.of_nat j ∈ indices)).
  unfold classes_present.
  set (J := filter (λ j : nat, Z.of_nat j ∈ indices) (seq 0 depth)).
  assert (HJ : NoDup (Z.of_nat <$> J)).
  { apply (NoDup_fmap_2 _). apply list.NoDup_filter, NoDup_seq. }
  rewrite <- (length_fmap Z.of_nat J), <- (size_list_to_set (C := gset Z)) by done.
  f_equal. apply set_eq. intros c.
  rewrite !elem_of_list_to_set, list_elem_of_fmap, list_elem_of_filter.
  split.
  - intros (j & -> & Hj). apply list_elem_of_filter in Hj as [Hin Hseq].
    apply elem_of_seq in Hseq. split; [lia | done].
  - intros [Hrange Hin]. exists (Z.to_nat c).
    split; [lia|]. apply list_elem_of_filter.
    rewrite elem_of_seq, Z2Nat.id by lia. split; [done | lia].
Qed.

Lemma classes_present_all (indices : list Z) (depth : nat) :
  Forall (λ c, 0 ≤ c < Z.of_nat depth) indices →
  classes_present indices depth = list_to_set indices.
Proof.
  intros Hall. unfold classes_present. f_equal.
  induction Hall as [|c cs Hc _ IH]; [done|].
  rewrite filter_cons, decide_True by done. by rewrite IH.
Qed.

Lemma features_lookup_None (items : list (string * feature)) (key : string) :
  key ∉ items.*1 → features_lookup items key = None.
Proof.
  induction items as [|[k f] items IH]; [done|]. simpl.
  rewrite not_elem_of_cons. intros [Hne Hnotin].
  rewrite bool_decide_eq_false_2 by done. by apply IH.
Qed.

Lemma features_lookup_elem_of (items : list (string * feature))
    (key : string) (f : feature) :
  NoDup items.*1 → (key, f) ∈ items → features_lookup items key = Some f.
Proof.
  induction items as [|[k g] items IH]; intros Hnodup Hin;
    [by apply elem_of_nil in Hin|].
  rewrite fmap_cons in Hnodup.
  apply list.NoDup_cons in Hnodup as [Hk Hnodup]. simpl in *.
  apply elem_of_cons in Hin as [[= -> ->] | Hin].
  - by rewrite bool_decide_eq_true_2.
  - rewrite bool_decide_eq_false_2; [by apply IH|].
    intros ->. apply Hk. apply list_elem_of_fmap. by exists (key, f).
Qed.

Lemma features_lookup_Some (items : list (string * feature))
    (key : string) (f : feature) :
  features_lookup items key = Some f → (key, f) ∈ items.
Proof.
  induction items as [|[k g] items IH]; [done|]. simpl.
  case_bool_decide as Hk.
  - intros [= ->]. subst k. apply elem_of_cons. by left.
  - intros Hlookup. apply elem_of_cons. right. by apply IH.
Qed.

(** One turn of the loop. *)
Lemma multi_hot_field_spec (example : record) (k : string) (f : feature) :
  (∀ n, f = Sequence (ClassLabel n) →
        ∃ indices, example !! k = Some (Int1 indices)) →
  ∃ example' : record,
    multi_hot_field example k f = Some example' ∧
    (∀ key, key ≠ k → example' !! key = example !! key) ∧
    example' !! k =
      match f, example !! k with
      | Sequence (ClassLabel n), Some (Int1 indices) =>
          Some (Int1 (clip_by_value
                        (reduce_sum_axis0 n (one_hot indices n)) 0 1))
      | _, t => t
      end.
Proof.
  intros Hfield.
  destruct f as [n | [n | | | |] | | |];
    try (exists example; split; [done|]; split; [done|];
         by destruct (example !! k) as [[]|]).
  destruct (Hfield n eq_refl) as [indices Hindices].
  eexists. unfold multi_hot_field. rewrite Hindices. simpl.
  split; [reflexivity|]. split.
  - intros key Hne. by rewrite lookup_insert_ne.
  - by rewrite lookup_insert_eq.
Qed.

(** What the loop over the features leaves in each field: the encoding
    for the fields that are sequences of class labels, the field as it
    was for the others. *)
Lemma multi_hot_loop_spec (items : list (string * feature)) :
  NoDup items.*1 →
  ∀ example : record,
    (∀ key n, features_lookup items key = Some (Sequence (ClassLabel n)) →
              ∃ indices, example !! key = Some (Int1 indices)) →
    ∃ out : record,
      multi_hot_loop example items = Some out ∧
      ∀ key,
        out !! key =
          match features_lookup items key, example !! key with
          | Some (Sequence (ClassLabel n)), Some (Int1 indices) =>
              Some (Int1 (clip_by_value
                            (reduce_sum_axis0 n (one_hot indices n)) 0 1))
          | _, t => t
          end.
Proof.
  induction items as [|[k f] items IH]; intros Hnodup example Hfields.
  - exists example. split; [done|]. intros key. simpl. by destruct (example !! key).
  - rewrite fmap_cons in Hnodup.
    apply list.NoDup_cons in Hnodup as [Hk Hnodup]. cbn [multi_hot_loop].
    destruct (multi_hot_field_spec example k f)
      as (example' & -> & Hother & Hthis).
    { intros n ->. apply (Hfields k n). simpl. by rewrite bool_decide_eq_true_2. }
 cbn [mbind option_bind].
    destruct (IH Hnodup example') as (out & Hout & Hlookup).
    { intros key n Hkey. assert (key ≠ k) as Hne.
      { intros ->. by rewrite features_lookup_None in Hkey. }
      rewrite Hother by done. apply (Hfields key n). simpl.
      by rewrite bool_decide_eq_false_2. }
    exists out. split; [done|]. intros key. rewrite Hlookup. simpl.
    case_bool_decide as Hkey.
    + subst k. rewrite features_lookup_None by done. rewrite Hthis.
      destruct f as [| [] | | |], (example !! key) as [[]|]; done.
    + by rewrite Hother.
Qed.

(** C6.  On a record with the fields [filename], [label_str] and a rank-1
    [audio], and a schema whose fields declared as sequences of class
    labels are present in the record as vectors of indices (and are not
    [filename], [label_str] or [source_audio]), [multi_hot] succeeds; the
    result has no [filename] and no [label_str]; its [source_audio] is the
    audio under a new leading axis of size 1; every field declared as a
    sequence of class labels with [n] classes holds a vector of length
    [n] with entries in {0, 1}, entry [j] being set exactly when class [j]
    occurs in the input sequence, so that the number of set bits is the
    number of distinct classes of the vocabulary that occur (the number of
    distinct indices, when all are in the vocabulary). *)
Theorem multi_hot_spec (example : record) (info : DatasetInfo)
    (filename label_str : tensor) (audio : list Qc) :
  example !! "filename" = Some filename →
  example !! "label_str" = Some label_str →
  example !! "audio" = Some (Flt1 audio) →
  NoDup (features info).*1 →
  (∀ key n, (key, Sequence (ClassLabel n)) ∈ features info →
     (key ∉ ["filename"; "label_str"; "source_audio"]) ∧
     (∃ indices, example !! key = Some (Int1 indices))) →
  ∃ out : record,
    multi_hot example info = Some out ∧
    out !! "filename" = None ∧
    out !! "label_str" = None ∧
    out !! "source_audio" = Some (Flt2 [audio]) ∧
    ∀ key n indices,
      (key, Sequence (ClassLabel n)) ∈ features info →
      example !! key = Some (Int1 indices) →
      ∃ v, out !! key = Some (Int1 v) ∧
           length v = n ∧
           is_multi_hot v ∧
           (∀ j : nat, (j < n)%nat →
              v !! j = Some (if decide (Z.of_nat j ∈ indices) then 1 else 0)) ∧
           set_bits v = size (classes_present indices n) ∧
           (Forall (λ c, 0 ≤ c < Z.of_nat n) indices →
            set_bits v = size (list_to_set indices : gset Z)).
Proof.
  intros Hfilename Hlabel_str Haudio Hnodup Hschema.
  pose proof (features_lookup_Some (features info)) as Hin.
  unfold multi_hot, del. rewrite Hfilename. cbn [mbind option_bind].
  rewrite lookup_delete_ne, Hlabel_str by done. cbn [mbind option_bind].
  set (example' := delete "label_str" (delete "filename" example)).
  assert (Hkeep : ∀ key, key ∉ ["filename"; "label_str"] →
            example' !! key = example !! key).
  { intros key Hkey. unfold example'.
    rewrite !lookup_delete_ne; [done|..]; intros <-; apply Hkey;
      [left | right; left]. }
  destruct (multi_hot_loop_spec (features info) Hnodup example')
    as (out & -> & Hout).
  { intros key n Hkey. destruct (Hschema key n (Hin _ _ Hkey)) as [Hne Hidx].
    rewrite Hkeep; [done|]. intros Hbad. apply Hne.
    apply elem_of_cons in Hbad as [-> | Hbad]; [left|].
    apply list_elem_of_singleton in Hbad as ->. right; left. }
  cbn [mbind option_bind].
  assert (Hdropped : ∀ key, example' !! key = None → out !! key = None).
  { intros key Hnone. rewrite Hout, Hnone.
    by destruct (features_lookup _ key) as [[| [] | | |]|]. }
  assert (Haudio' : out !! "audio" = Some (Flt1 audio)).
  { rewrite Hout, Hkeep, Haudio.
    - by destruct (features_lookup _ "audio") as [[| [] | | |]|].
    - intros Hbad. repeat (apply elem_of_cons in Hbad as [? | Hbad]; [done|]).
      by apply elem_of_nil in Hbad. }
  rewrite Haudio'. cbn [mbind option_bind expand_dims].
  eexists. split; [reflexivity|].
  split. { rewrite lookup_insert_ne by done. apply Hdropped.
           unfold example'. by rewrite lookup_delete_ne, lookup_delete_eq. }
  split. { rewrite lookup_insert_ne by done. apply Hdropped.
           unfold example'. by rewrite lookup_delete_eq. }
  split. { by rewrite lookup_insert_eq. }
  intros key n indices Hkey Hindices.
  destruct (Hschema key n Hkey) as [Hne _].
  eexists. split.
  { rewrite lookup_insert_ne.
    - rewrite Hout, (features_lookup_elem_of _ _ _ Hnodup Hkey), Hkeep, Hindices.
      + reflexivity.
      + intros Hbad. apply Hne.
        apply elem_of_cons in Hbad as [-> | Hbad]; [left|].
        apply list_elem_of_singleton in Hbad as ->. right; left.
    - intros <-. apply Hne. right; right; left. }
  split. { unfold clip_by_value. by rewrite length_map, reduce_sum_one_hot_length. }
  split; [apply multi_hot_vector_bits|].
  split. { intros j Hj. by apply multi_hot_vector_lookup. }
  split; [apply multi_hot_vector_set_bits|].
  intros Hall. rewrite multi_hot_vector_set_bits. f_equal.
  by apply classes_present_all.
Qed.

Lemma multi_hot_spec_witness :
  ∃ out : record,
    multi_hot raw0 info0 = Some out ∧
    out !! "filename" = None ∧
    out !! "label_str" = None ∧
    out !! "source_audio" = Some (Flt2 [clip3]) ∧
    ∀ key n indices,
      (key, Sequence (ClassLabel n)) ∈ features info0 →
      raw0 !! key = Some (Int1 indices) →
      ∃ v, out !! key = Some (Int1 v) ∧
           length v = n ∧
           is_multi_hot v ∧
           (∀ j : nat, (j < n)%nat →
              v !! j = Some (if decide (Z.of_nat j ∈ indices) then 1 else 0)) ∧
           set_bits v = size (classes_present indices n) ∧
           (Forall (λ c, 0 ≤ c < Z.of_nat n) indices →
            set_bits v = size (list_to_set indices : gset Z)).
Proof.
  apply (multi_hot_spec raw0 info0 (Str0 "XC1.wav") (Str0 "amecro") clip3).
  - reflexivity.
  - reflexivity.
  - reflexivity.
  - apply (bool_decide_unpack _). vm_compute. exact I.
  - intros key n Hkey. unfold info0, features in Hkey.
    repeat (apply elem_of_cons in Hkey as [Hkey | Hkey];
            [try discriminate Hkey|]);
      [injection Hkey as -> -> ..| by apply elem_of_nil in Hkey];
      (split; [apply (bool_decide_unpack _); vm_compute; exact I
              | eexists; reflexivity]).
Defined.

(** ** Batching *)

Lemma stack_examples_cons (e0 : record) (es : list record) :
  stack_examples (e0 :: es) =
    if decide (Forall (λ e : record, dom e = dom e0) (e0 :: es) ∧
               map_Forall (λ key _, is_Some (column key (e0 :: es) ≫= stack_tensors)) e0)
    then Some (map_imap (λ key _, column key (e0 :: es) ≫= stack_tensors) e0)
    else None.
Proof. reflexivity. Qed.

(** Every field of a batch is the stack of that field's values. *)
Lemma stack_examples_lookup (es : list record) (ex : record) (key : string)
    (ts : list tensor) :
  stack_examples es = Some ex →
  es ≠ [] →
  column key es = Some ts →
  ∃ t, stack_tensors ts = Some t ∧ ex !! key = Some t.
Proof.
  destruct es as [|e0 es']; [done|].
  intros Hstack _ Hcol. rewrite stack_examples_cons in Hstack.
  case_decide as Hok; [|done]. destruct Hok as [_ Hall].
  apply (inj Some) in Hstack. subst ex. rewrite map_lookup_imap.
  assert (is_Some (e0 !! key)) as [t0 Ht0].
  { unfold column in Hcol. cbn [mapM] in Hcol.
    destruct (e0 !! key); [eauto | done]. }
  destruct (Hall key t0 Ht0) as [t Ht]. rewrite Hcol in Ht |- *.
  rewrite Ht0. eauto.
Qed.

Lemma batch_1_singleton (e ex : record) :
  stack_examples [e] = Some ex → batch 1 [e] = Some [ex].
Proof.
  intros H.
  change (batch 1 [e])
    with (b ← stack_examples [e]; bs ← Some []; Some (b :: bs)).
  by rewrite H.
Qed.

Lemma batch_2_pair (e1 e2 ex : record) :
  stack_examples [e1; e2] = Some ex → batch 2 [e1; e2] = Some [ex].
Proof.
  intros H.
  change (batch 2 [e1; e2])
    with (b ← stack_examples [e1; e2]; bs ← Some []; Some (b :: bs)).
  by rewrite H.
Qed.

(** ** [_mix_audio] *)

Lemma label_keys_NoDup : NoDup label_keys.
Proof. apply (bool_decide_unpack _). by vm_compute. Qed.

Lemma reduce_labels_spec (keys : list string) :
  NoDup keys →
  ∀ examples : record,
    (∀ key, key ∈ keys → is_Some (examples !! key ≫= reduce_max_axis0)) →
    ∃ out : record,
      reduce_labels examples keys = Some out ∧
      ∀ key, out !! key =
               if decide (key ∈ keys)
               then examples !! key ≫= reduce_max_axis0
               else examples !! key.
Proof.
  induction keys as [|k keys IH]; intros Hnodup examples Hkeys.
  - exists examples. split; [done|]. intros key.
    rewrite decide_False; [done | apply not_elem_of_nil].
  - apply list.NoDup_cons in Hnodup as [Hk Hnodup].
    destruct (Hkeys k) as [t' Ht']; [left|].
    cbn [reduce_labels].
    destruct (examples !! k) as [t|] eqn:Ht; [|done].
    cbn [mbind option_bind] in Ht' |- *. rewrite Ht'. cbn [mbind option_bind].
    destruct (IH Hnodup (<[k := t']> examples)) as (out & Hout & Hlookup).
    { intros key Hkey. rewrite lookup_insert_ne by (intros ->; done).
      apply Hkeys. by right. }
    exists out. split; [done|]. intros key. rewrite Hlookup.
    destruct (decide (key = k)) as [->|Hne].
    + rewrite decide_False by done. rewrite decide_True by left.
      by rewrite lookup_insert_eq, Ht.
    + rewrite lookup_insert_ne by done.
      destruct (decide (key ∈ keys)) as [Hin|Hnotin].
      * by rewrite decide_True by by right.
      * rewrite decide_False; [done|]. rewrite not_elem_of_cons. done.
Qed.

(** What [_mix_audio] does to a batch: [source_audio] loses its dummy axis
    (after a silent source was appended to a batch of one) and is divided
    by the number of records of the batch, [audio] becomes the mean over the
    batch, the label fields their maximum over the batch. *)
Lemma mix_audio_batch (examples : record) (c : list (list (list Qc)))
    (sources : list (list Qc)) (audio : list (list Qc)) :
  examples !! "source_audio" = Some (Flt3 c) →
  examples !! "audio" = Some (Flt2 audio) →
  audio ≠ [] →
  mapM (λ m : list (list Qc), m !! 0%nat)
    (if (length c =? 1)%nat then c ++ zeros_like c else c) = Some sources →
  (∀ key, key ∈ label_keys → is_Some (examples !! key ≫= reduce_max_axis0)) →
  ∃ out : record,
    _mix_audio examples = Some out ∧
    out !! "source_audio" =
      Some (Flt2 (map (map (λ x, x / Qc_of_nat (length audio))%Qc) sources)) ∧
    out !! "audio" = Flt1 <$> reduce_mean_axis0 audio ∧
    ∀ key, key ∈ label_keys → out !! key = examples !! key ≫= reduce_max_axis0.
Proof.
  intros Hsource Haudio Hne Hsources Hlabels.
  assert (Hsa : "source_audio" ∉ label_keys)
    by (apply (bool_decide_unpack _); by vm_compute).
  assert (Hau : "audio" ∉ label_keys)
    by (apply (bool_decide_unpack _); by vm_compute).
  unfold _mix_audio. rewrite Hsource. cbn [mbind option_bind as_flt3].
  rewrite Hsources. cbn [mbind option_bind].
  destruct (reduce_labels_spec label_keys label_keys_NoDup
              (<["source_audio" := Flt2 sources]> examples))
    as (reduced & -> & Hreduced).
  { intros key Hkey. rewrite lookup_insert_ne by (intros <-; done). auto. }
  cbn [mbind option_bind].
  rewrite (Hreduced "source_audio"), decide_False, lookup_insert_eq by done.
  cbn [mbind option_bind as_flt2].
  rewrite (Hreduced "audio"), decide_False, lookup_insert_ne, Haudio by done.
  cbn [mbind option_bind as_flt2].
  rewrite lookup_insert_ne, (Hreduced "audio"), decide_False,
    lookup_insert_ne, Haudio by done.
  cbn [mbind option_bind as_flt2].
  destruct audio as [|r rs]; [done|]. cbn [reduce_mean_axis0 mbind option_bind].
  eexists. split; [reflexivity|].
  split. { by rewrite lookup_insert_ne, lookup_insert_eq. }
  split. { by rewrite lookup_insert_eq. }
  intros key Hkey.
  rewrite !lookup_insert_ne by (intros <-; done).
  rewrite Hreduced, decide_True by done.
  by rewrite lookup_insert_ne by (intros <-; done).
Qed.

(** ** The reducer on a pair and on a single record *)

Lemma zip_with_max_lor (v w : list Z) :
  is_multi_hot v → is_multi_hot w → zip_with Z.max v w = zip_with Z.lor v w.
Proof.
  intros Hv. revert w. induction Hv as [|b v Hb _ IH]; intros w Hw; [done|].
  destruct Hw as [|c w Hc Hw]; [done|]. simpl. rewrite IH by done. f_equal.
  destruct Hb as [-> | ->], Hc as [-> | ->]; reflexivity.
Qed.

Lemma fmap_zip_with_compose {A B C D} (f : C → D) (g : A → B → C)
    (l : list A) (k : list B) :
  map f (zip_with g l k) = zip_with (λ x y, f (g x y)) l k.
Proof.
  revert k. induction l as [|x l IH]; intros [|y k]; simpl; [done..|].
  by rewrite IH.
Qed.

Lemma map_zero_replicate (a : list Qc) :
  map (λ _ : Qc, 0%Qc) a = replicate (length a) 0%Qc.
Proof. induction a as [|x a IH]; [done|]. simpl. by rewrite IH. Qed.

Lemma Qcdiv_1_r (x : Qc) : (x / Qc_of_nat 1)%Qc = x.
Proof. change (Qc_of_nat 1) with 1%Qc. apply Qcdiv_right_id. Qed.

(** The reducer on a window of two single-source records that can be
    batched (same fields, same shapes). *)
Lemma reduce_pair (key : Z) (e1 e2 : record) (a1 a2 : list Qc)
    (labels1 labels2 : string → list Z) :
  key ≠ 0 →
  single_source e1 a1 labels1 →
  single_source e2 a2 labels2 →
  is_Some (stack_examples [e1; e2]) →
  ∃ out : record,
    reduce_func key [e1; e2] = Some [out] ∧
    out !! "source_audio" =
      Some (Flt2 (map (map (λ x, x / Qc_of_nat 2)%Qc) [a1; a2])) ∧
    out !! "audio" =
      Some (Flt1 (map (λ x, x / Qc_of_nat 2)%Qc (zip_with Qcplus a1 a2))) ∧
    length a1 = length a2 ∧
    ∀ k, k ∈ label_keys →
      out !! k = Some (Int1 (zip_with Z.max (labels1 k) (labels2 k))) ∧
      length (labels1 k) = length (labels2 k).
Proof.
  intros Hkey (Haudio1 & Hsource1 & Hlabels1) (Haudio2 & Hsource2 & Hlabels2)
    [ex Hex].
  assert (Hcol : ∀ k t1 t2, e1 !! k = Some t1 → e2 !! k = Some t2 →
            ∃ t, stack_tensors [t1; t2] = Some t ∧ ex !! k = Some t).
  { intros k t1 t2 H1 H2. apply (stack_examples_lookup [e1; e2]); [done..|].
    unfold column. cbn [mapM]. by rewrite H1, H2. }
  destruct (Hcol _ _ _ Haudio1 Haudio2) as (ta & Hta & Hexa).
  destruct (Hcol _ _ _ Hsource1 Hsource2) as (ts & Hts & Hexs).
  cbn in Hta. case_decide as Hlen; [|done].
  cbn in Hts. case_decide; [|done].
  injection Hta as <-. injection Hts as <-.
  apply list.Forall_cons in Hlen as [_ Hlen].
  apply list.Forall_cons in Hlen as [Hlen _].
  destruct (mix_audio_batch ex [[a1]; [a2]] [a1; a2] [a1; a2])
    as (out & Hout & Hosource & Hoaudio & Holabels); [done..| |].
  { intros k Hk. destruct (Hlabels1 k Hk) as [H1 _], (Hlabels2 k Hk) as [H2 _].
    destruct (Hcol _ _ _ H1 H2) as (t & Ht & ->).
    cbn in Ht. case_decide; [|done]. injection Ht as <-. by eexists. }
  exists out. split.
  { unfold reduce_func. rewrite (proj2 (Z.eqb_neq key 0)) by done.
    rewrite (batch_2_pair _ _ _ Hex). cbn [mbind option_bind mapM].
    by rewrite Hout. }
  split; [done|]. split; [done|]. split; [by rewrite Hlen|].
  intros k Hk. rewrite (Holabels k Hk).
  destruct (Hlabels1 k Hk) as [H1 _], (Hlabels2 k Hk) as [H2 _].
  destruct (Hcol _ _ _ H1 H2) as (t & Ht & ->).
  cbn in Ht. case_decide as Hlenk; [|done]. injection Ht as <-.
  apply list.Forall_cons in Hlenk as [_ Hlenk].
  apply list.Forall_cons in Hlenk as [Hlenk _]. by rewrite Hlenk.
Qed.

(** The reducer on a window of one single-source record. *)
Lemma reduce_single (e : record) (a : list Qc) (labels : string → list Z) :
  single_source e a labels →
  is_Some (stack_examples [e]) →
  ∃ out : record,
    reduce_func 0 [e] = Some [out] ∧
    out !! "source_audio" =
      Some (Flt2 (map (map (λ x, x / Qc_of_nat 1)%Qc) [a; map (λ _, 0%Qc) a])) ∧
    out !! "audio" = Some (Flt1 (map (λ x, x / Qc_of_nat 1)%Qc a)) ∧
    ∀ k, k ∈ label_keys → out !! k = Some (Int1 (labels k)).
Proof.
  intros (Haudio & Hsource & Hlabels) [ex Hex].
  assert (Hcol : ∀ k t, e !! k = Some t →
            ∃ t', stack_tensors [t] = Some t' ∧ ex !! k = Some t').
  { intros k t H. apply (stack_examples_lookup [e]); [done..|].
    unfold column. cbn [mapM]. by rewrite H. }
  destruct (Hcol _ _ Haudio) as (ta & Hta & Hexa).
  destruct (Hcol _ _ Hsource) as (ts & Hts & Hexs).
  cbn in Hta, Hts. case_decide; [|done]. case_decide; [|done].
  injection Hta as <-. injection Hts as <-.
  destruct (mix_audio_batch ex [[a]] [a; map (λ _, 0%Qc) a] [a])
    as (out & Hout & Hosource & Hoaudio & Holabels); [done..| |].
  { intros k Hk. destruct (Hlabels k Hk) as [H1 _].
    destruct (Hcol _ _ H1) as (t & Ht & ->).
    cbn in Ht. case_decide; [|done]. injection Ht as <-. by eexists. }
  exists out. split.
  { unfold reduce_func. cbn [Z.eqb].
    rewrite (batch_1_singleton _ _ Hex). cbn [mbind option_bind mapM].
    by rewrite Hout. }
  split; [done|]. split; [done|].
  intros k Hk. rewrite (Holabels k Hk).
  destruct (Hlabels k Hk) as [H1 _].
  destruct (Hcol _ _ H1) as (t & Ht & ->).
  cbn in Ht. case_decide; [|done]. by injection Ht as <-.
Qed.

(** C1.  A window is what the reducer batches into one record: two
    records on the mixing path (key other than 0), one record on the path
    of key 0.  A window of two single-source records that can be batched is
    reduced to one record whose multi-hot fields are the elementwise
    bitwise OR of the two inputs' fields, whose [audio] is the elementwise
    mean [(a1 + a2) / 2], and whose two [source_audio] rows are [a1 / 2] and
    [a2 / 2].  A window of one record is reduced to one record whose second
    [source_audio] row is all-zero (the first is the input's audio, as is
    [audio]) and whose multi-hot fields are the input's. *)
Theorem mixer_window_spec :
  (∀ (key : Z) (e1 e2 : record) (a1 a2 : list Qc)
     (labels1 labels2 : string → list Z),
     key ≠ 0 →
     single_source e1 a1 labels1 →
     single_source e2 a2 labels2 →
     is_Some (stack_examples [e1; e2]) →
     ∃ out : record,
       reduce_func key [e1; e2] = Some [out] ∧
       (∀ k, k ∈ label_keys →
          out !! k = Some (Int1 (zip_with Z.lor (labels1 k) (labels2 k)))) ∧
       out !! "audio" =
         Some (Flt1 (zip_with (λ x y, (x + y) / Q2Qc 2)%Qc a1 a2)) ∧
       out !! "source_audio" =
         Some (Flt2 [map (λ x, x / Q2Qc 2)%Qc a1; map (λ x, x / Q2Qc 2)%Qc a2]) ∧
       length a1 = length a2 ∧
       (∀ k, k ∈ label_keys → length (labels1 k) = length (labels2 k))) ∧
  (∀ (e : record) (a : list Qc) (labels : string → list Z),
     single_source e a labels →
     is_Some (stack_examples [e]) →
     ∃ out : record,
       reduce_func 0 [e] = Some [out] ∧
       (∀ k, k ∈ label_keys → out !! k = Some (Int1 (labels k))) ∧
       out !! "audio" = Some (Flt1 a) ∧
       out !! "source_audio" = Some (Flt2 [a; replicate (length a) 0%Qc])).
Proof.
  split.
  - intros key e1 e2 a1 a2 labels1 labels2 Hkey H1 H2 Hstack.
    destruct (reduce_pair key e1 e2 a1 a2 labels1 labels2 Hkey H1 H2 Hstack)
      as (out & Hout & Hsource & Haudio & Hlen & Hlabels).
    exists out. split; [done|]. split; [|split; [|split; [|split]]].
    + intros k Hk. rewrite (proj1 (Hlabels k Hk)). do 2 f_equal.
      apply zip_with_max_lor; [by apply H1 | by apply H2].
    + rewrite Haudio. do 2 f_equal. apply fmap_zip_with_compose.
    + exact Hsource.
    + exact Hlen.
    + intros k Hk. apply (Hlabels k Hk).
  - intros e a labels He Hstack.
    destruct (reduce_single e a labels He Hstack)
      as (out & Hout & Hsource & Haudio & Hlabels).
    exists out. split; [done|]. split; [done|]. split.
    + rewrite Haudio. do 2 f_equal.
      rewrite <- (map_id a) at 2. apply map_ext, Qcdiv_1_r.
    + rewrite Hsource. do 2 f_equal. cbn [map]. f_equal.
      * rewrite <- (map_id a) at 2. apply map_ext, Qcdiv_1_r.
      * f_equal. rewrite map_zero_replicate.
        rewrite <- (map_id (replicate _ _)) at 2. apply map_ext, Qcdiv_1_r.
Qed.

Lemma single_source_rec1 : single_source rec1 [Q2Qc 1; Q2Qc 2] (labels_of rec1).
Proof.
  split; [reflexivity|]. split; [reflexivity|].
  intros k Hk. unfold label_keys in Hk.
  repeat (apply elem_of_cons in Hk as [-> | Hk];
          [split; [reflexivity
                  | apply (bool_decide_unpack _); vm_compute; exact I]|]).
  by apply elem_of_nil in Hk.
Defined.

Lemma single_source_rec2 : single_source rec2 [Q2Qc 3; Q2Qc 5] (labels_of rec2).
Proof.
  split; [reflexivity|]. split; [reflexivity|].
  intros k Hk. unfold label_keys in Hk.
  repeat (apply elem_of_cons in Hk as [-> | Hk];
          [split; [reflexivity
                  | apply (bool_decide_unpack _); vm_compute; exact I]|]).
  by apply elem_of_nil in Hk.
Defined.

Lemma mixer_window_spec_witness :
  (∃ out : record,
     reduce_func 1 [rec1; rec2] = Some [out] ∧
     (∀ k, k ∈ label_keys →
        out !! k = Some (Int1 (zip_with Z.lor (labels_of rec1 k) (labels_of rec2 k)))) ∧
     out !! "audio" =
       Some (Flt1 (zip_with (λ x y, (x + y) / Q2Qc 2)%Qc
                     [Q2Qc 1; Q2Qc 2] [Q2Qc 3; Q2Qc 5])) ∧
     out !! "source_audio" =
       Some (Flt2 [map (λ x, x / Q2Qc 2)%Qc [Q2Qc 1; Q2Qc 2];
                   map (λ x, x / Q2Qc 2)%Qc [Q2Qc 3; Q2Qc 5]]) ∧
     length [Q2Qc 1; Q2Qc 2] = length [Q2Qc 3; Q2Qc 5] ∧
     (∀ k, k ∈ label_keys →
        length (labels_of rec1 k) = length (labels_of rec2 k))) ∧
  (∃ out : record,
     reduce_func 0 [rec1] = Some [out] ∧
     (∀ k, k ∈ label_keys → out !! k = Some (Int1 (labels_of rec1 k))) ∧
     out !! "audio" = Some (Flt1 [Q2Qc 1; Q2Qc 2]) ∧
     out !! "source_audio" =
       Some (Flt2 [[Q2Qc 1; Q2Qc 2]; replicate (length [Q2Qc 1; Q2Qc 2]) 0%Qc])).
Proof.
  split.
  - apply (proj1 mixer_window_spec 1 rec1 rec2 _ _ _ _).
    + discriminate.
    + exact single_source_rec1.
    + exact single_source_rec2.
    + eexists. vm_compute. reflexivity.
  - apply (proj2 mixer_window_spec rec1 _ _).
    + exact single_source_rec1.
    + eexists. vm_compute. reflexivity.
Defined.

(** In a window of one record, [source_audio] is not the two source rows
    divided by 2. *)
Lemma mixer_singleton_not_halved :
  ∃ out : record,
    reduce_func 0 [rec1] = Some [out] ∧
    out !! "source_audio" ≠
      Some (Flt2 (map (map (λ x, x / Q2Qc 2)%Qc)
                    [[Q2Qc 1; Q2Qc 2]; [0%Qc; 0%Qc]])).
Proof.
  eexists. split; [vm_compute; reflexivity|].
  intros H. vm_compute in H. discriminate H.
Qed.

(** C2 (amended).  The reducer divides [source_audio] by the number of
    records it batched ([examples['audio'].shape[0]]): by 2 for a window of
    two records, by 1 for a window of one record, whose two source rows (the
    input's audio and the silent row) are therefore left as they are. *)
Theorem mixer_source_audio_scale :
  (∀ (key : Z) (e1 e2 : record) (a1 a2 : list Qc)
     (labels1 labels2 : string → list Z),
     key ≠ 0 →
     single_source e1 a1 labels1 →
     single_source e2 a2 labels2 →
     is_Some (stack_examples [e1; e2]) →
     ∃ out : record,
       reduce_func key [e1; e2] = Some [out] ∧
       out !! "source_audio" =
         Some (Flt2 (map (map (λ x, x / Qc_of_nat (length [e1; e2]))%Qc)
                       [a1; a2])) ∧
       Qc_of_nat (length [e1; e2]) = Q2Qc 2) ∧
  (∀ (e : record) (a : list Qc) (labels : string → list Z),
     single_source e a labels →
     is_Some (stack_examples [e]) →
     ∃ out : record,
       reduce_func 0 [e] = Some [out] ∧
       out !! "source_audio" =
         Some (Flt2 (map (map (λ x, x / Qc_of_nat (length [e]))%Qc)
                       [a; replicate (length a) 0%Qc])) ∧
       Qc_of_nat (length [e]) = 1%Qc ∧
       out !! "source_audio" = Some (Flt2 [a; replicate (length a) 0%Qc])).
Proof.
  split.
  - intros key e1 e2 a1 a2 labels1 labels2 Hkey H1 H2 Hstack.
    destruct (reduce_pair key e1 e2 a1 a2 labels1 labels2 Hkey H1 H2 Hstack)
      as (out & Hout & Hsource & _). by exists out.
  - intros e a labels He Hstack.
    destruct (reduce_single e a labels He Hstack)
      as (out & Hout & Hsource & _).
    pose proof (map_zero_replicate a) as Hzeros.
    exists out. split; [done|]. rewrite Hsource, Hzeros.
    split; [done|]. split; [done|]. do 2 f_equal. cbn [map]. f_equal.
    + rewrite <- (map_id a) at 2. apply map_ext, Qcdiv_1_r.
    + f_equal. rewrite <- (map_id (replicate _ _)) at 2.
      apply map_ext, Qcdiv_1_r.
Qed.

Lemma mixer_source_audio_scale_witness :
  (∃ out : record,
     reduce_func 1 [rec1; rec2] = Some [out] ∧
     out !! "source_audio" =
       Some (Flt2 (map (map (λ x, x / Qc_of_nat (length [rec1; rec2]))%Qc)
                     [[Q2Qc 1; Q2Qc 2]; [Q2Qc 3; Q2Qc 5]])) ∧
     Qc_of_nat (length [rec1; rec2]) = Q2Qc 2) ∧
  (∃ out : record,
     reduce_func 0 [rec1] = Some [out] ∧
     out !! "source_audio" =
       Some (Flt2 (map (map (λ x, x / Qc_of_nat (length [rec1]))%Qc)
                     [[Q2Qc 1; Q2Qc 2];
                      replicate (length [Q2Qc 1; Q2Qc 2]) 0%Qc])) ∧
     Qc_of_nat (length [rec1]) = 1%Qc ∧
     out !! "source_audio" =
       Some (Flt2 [[Q2Qc 1; Q2Qc 2];
                   replicate (length [Q2Qc 1; Q2Qc 2]) 0%Qc])).
Proof.
  split.
  - apply (proj1 mixer_source_audio_scale 1 rec1 rec2 _ _
             (labels_of rec1) (labels_of rec2)).
    + discriminate.
    + exact single_source_rec1.
    + exact single_source_rec2.
    + eexists. vm_compute. reflexivity.
  - apply (proj2 mixer_source_audio_scale rec1 _ (labels_of rec1)).
    + exact single_source_rec1.
    + eexists. vm_compute. reflexivity.
Defined.

(** ** The lone record of the mixing path *)

(** C10.  On a window that holds a single record, a single-source record
    that can be batched, the reducer of the mixing path (key 1, and any key
    other than 0) returns the empty dataset: no record and no error, where
    the reducer of key 0 emits one record for it.  A stream of one such
    record that draws the key 1 is therefore mixed into the empty stream. *)
Theorem reducer_drops_lone_record (r : record) (a : list Qc)
    (labels : string → list Z) :
  single_source r a labels →
  is_Some (stack_examples [r]) →
  reduce_func 1 [r] = Some [] ∧
  (∀ key, key ≠ 0 → reduce_func key [r] = Some []) ∧
  (∀ (mixin_prob : Qc) (draws : nat → Qc),
     (draws 0%nat < mixin_prob)%Qc →
     key_func mixin_prob (draws 0%nat) = 1 ∧
     mix_audio [r] mixin_prob draws = Some []) ∧
  (∃ out : record, reduce_func 0 [r] = Some [out]).
Proof.
  intros Hr Hstack.
  split; [reflexivity|]. split; [|split].
  - intros key Hkey. unfold reduce_func.
    by rewrite (proj2 (Z.eqb_neq key 0)).
  - intros mixin_prob draws Hdraw.
    assert (Hkey : key_func mixin_prob (draws 0%nat) = 1)
      by (unfold key_func; by rewrite decide_True).
    split; [done|].
    unfold mix_audio, group_by_window. cbn [imap]. rewrite Hkey. reflexivity.
  - destruct (reduce_single r a labels Hr Hstack) as (out & Hout & _).
    by exists out.
Qed.

Lemma reducer_drops_lone_record_witness :
  reduce_func 1 [rec1] = Some [] ∧
  reduce_func 7 [rec1] = Some [] ∧
  key_func (Q2Qc (1 # 2)) (Q2Qc (1 # 4)) = 1 ∧
  mix_audio [rec1] (Q2Qc (1 # 2)) (λ _, Q2Qc (1 # 4)) = Some [] ∧
  (∃ out : record, reduce_func 0 [rec1] = Some [out]).
Proof.
  destruct (reducer_drops_lone_record rec1 [Q2Qc 1; Q2Qc 2] (labels_of rec1))
    as (Hone & Hkey & Hstream & Hzero).
  - exact single_source_rec1.
  - eexists. vm_compute. reflexivity.
  - split; [exact Hone|]. split; [apply Hkey; discriminate|].
    destruct (Hstream (Q2Qc (1 # 2)) (λ _, Q2Qc (1 # 4))) as [Hdrawn Hmixed];
      [reflexivity|].
    split; [exact Hdrawn|]. split; [exact Hmixed | exact Hzero].
Defined.

(** The unpartnered third record of a stream that always draws key 1. *)
Example mix_audio_three_records :
  ∃ out : record,
    mix_audio [rec1; rec2; rec1] 1%Qc (λ _, 0%Qc) = Some [out] ∧
    reduce_func 1 [rec1; rec2] = Some [out].
Proof. eexists. split; vm_compute; reflexivity. Qed.

(** ** The stream *)

(** On the path of key 0 every record of a window is reduced alone. *)
Lemma reduce_func_key0_pair (e1 e2 : record) :
  reduce_func 0 [e1; e2] =
    out1 ← reduce_func 0 [e1]; out2 ← reduce_func 0 [e2]; Some (out1 ++ out2).
Proof.
  unfold reduce_func. cbn [Z.eqb].
  change (batch 1 [e1; e2])
    with (b ← stack_examples [e1];
          bs ← (b' ← stack_examples [e2]; bs' ← Some []; Some (b' :: bs'));
          Some (b :: bs)).
  change (batch 1 [e1])
    with (b ← stack_examples [e1]; bs ← Some []; Some (b :: bs)).
  change (batch 1 [e2])
    with (b ← stack_examples [e2]; bs ← Some []; Some (b :: bs)).
  destruct (stack_examples [e1]) as [b1|]; [|done].
  destruct (stack_examples [e2]) as [b2|]; cbn [mbind option_bind mapM];
    destruct (_mix_audio b1) as [o1|]; cbn [mbind option_bind mret option_ret];
    try done;
    by destruct (_mix_audio b2).
Qed.

Lemma imap_all_key_1 (f : nat → record → Z * record) (ds : list record) :
  (∀ i x, f i x = (1, x)) → imap f ds = map (pair 1) ds.
Proof.
  revert f. induction ds as [|x ds IH]; intros f Hf; [done|].
  cbn [imap map]. rewrite Hf. f_equal. apply IH. intros i y. apply Hf.
Qed.

(** When every record draws the key 1, the records are mixed two by two,
    and the last record of a stream of odd length is dropped. *)
Lemma group_by_window_unpartnered (n : nat) (ds : list record) (r : record) :
  length ds = (2 * n)%nat →
  group_by_window (map (pair 1) (ds ++ [r])) reduce_func 2 =
    group_by_window (map (pair 1) ds) reduce_func 2.
Proof.
  unfold group_by_window. revert ds.
  induction n as [|n IH]; intros ds Hlen.
  - destruct ds; [reflexivity | done].
  - destruct ds as [|x [|y ds]]; [done | simpl in Hlen; lia |].
    assert (Hstep : ∀ rest,
              group_by_window_from reduce_func 2 [] ((1, x) :: (1, y) :: rest) =
                out ← reduce_func 1 [x; y];
                more ← group_by_window_from reduce_func 2 [] rest;
                Some (out ++ more)) by reflexivity.
    cbn [app map]. rewrite !Hstep, IH; [done|]. simpl in Hlen. lia.
Qed.

Lemma mix_audio_unpartnered (n : nat) (ds : list record) (r : record)
    (mixin_prob : Qc) (draws : nat → Qc) :
  (∀ i, draws i < mixin_prob)%Qc →
  length ds = (2 * n)%nat →
  mix_audio (ds ++ [r]) mixin_prob draws = mix_audio ds mixin_prob draws.
Proof.
  intros Hdraws Hlen. unfold mix_audio.
  assert (Hkeys : ∀ (i : nat) (x : record),
            (key_func mixin_prob (draws i), x) = (1, x)).
  { intros i x. unfold key_func. by rewrite decide_True. }
  rewrite !(imap_all_key_1 _ _ Hkeys).
  by apply group_by_window_unpartnered with n.
Qed.

(** ** Worked examples *)

(** Two records with the one-hot labels [[1,0,0]] and [[0,1,0]], mixed with
    probability 1: one record, with label [[1,1,0]], the mean of the two
    waveforms as audio and the halved waveforms as sources. *)
Example mix_audio_end_to_end :
  ∃ out : record,
    mix_audio [rec1; rec2] 1%Qc (λ _, 0%Qc) = Some [out] ∧
    out !! "label" = Some (Int1 [1; 1; 0]) ∧
    map this <$> (out !! "audio" ≫= as_flt1) = Some [2; 7 # 2]%Q ∧
    map (map this) <$> (out !! "source_audio" ≫= as_flt2)
      = Some [[1 # 2; 1]; [3 # 2; 5 # 2]]%Q.
Proof. eexists. repeat split; vm_compute; reflexivity. Qed.

(** Repeated background labels set one bit each. *)
Example multi_hot_raw0 :
  ∃ out : record,
    multi_hot raw0 info0 = Some out ∧
    out !! "bg_labels" = Some (Int1 [1; 0; 1]) ∧
    out !! "label" = Some (Int1 [0; 1; 0]) ∧
    out !! "genus" = Some (Int1 [0; 0]) ∧
    out !! "source_audio" = Some (Flt2 [clip3]) ∧
    dom out = {[ "audio"; "source_audio"; "label"; "bg_labels"; "genus" ]}.
Proof. eexists. repeat split; vm_compute; reflexivity. Qed.

(** A short clip: three samples in a window of four. *)
Example process_audio_mixed0 :
  ∃ out : record,
    process_audio mixed0 info0 2 (Q2Qc (1 # 4)) (Q2Qc (1 # 2)) 7 (Q2Qc (1 # 3))
      = Some out ∧
    length <$> (out !! "audio" ≫= as_flt1) = Some 4%nat ∧
    map length <$> (out !! "source_audio" ≫= as_flt2) = Some [3; 3]%nat.
Proof. eexists. repeat split; vm_compute; reflexivity. Qed.

End PipelineFacts.

(* ===================================================================== *)
(** * Further properties of filter_scrub_utils.py *)
(* ===================================================================== *)

Module FilterScrubExtras.
Import FilterScrub FilterScrubFacts.

(** ** Equality and membership *)

Lemma scalar_eq_refl (s : scalar) : scalar_eq s s = true.
Proof. destruct s; simpl; by rewrite ?bool_decide_eq_true_2. Qed.

Lemma contains_app (h : heap) (v1 v2 : list value) (v : value) :
  contains h (v1 ++ v2) v = contains h v1 v || contains h v2 v.
Proof. unfold contains. apply existsb_app. Qed.

Lemma contains_true (h : heap) (values : list value) (v w : value) :
  w ∈ values → py_eq h v w = true → contains h values v = true.
Proof.
  intros Hin Heq. unfold contains. apply existsb_exists.
  exists w. by rewrite <- list_elem_of_In.
Qed.

Lemma check_types_inv (T : pytype) (values : list value) :
  check_types T values = Ok () →
  ∀ val, val ∈ values → isinstance val T = true.
Proof.
  induction values as [|w ws IH]; intros Hok val Hin;
    [by apply elem_of_nil in Hin|].
  simpl in Hok. destruct (isinstance w T) eqn:Hw; [|done].
  apply elem_of_cons in Hin as [-> | Hin]; [done | by apply IH].
Qed.

(** ** [not_in] *)

(** X1.  When every value has the type of the field, [not_in] returns a
    boolean, which is [False] exactly when one of the values equals the
    field's value (so it is [True] for no values at all); in particular it
    is [False] when the values contain the field's own scalar value. *)
Theorem not_in_membership (h : heap) (fd : loc) (d : gmap string value)
    (key : string) (v : value) (values : list value) :
  dicts h !! fd = Some d →
  d !! key = Some v →
  (∀ val, val ∈ values → isinstance val (type_of v) = true) →
  ∃ b : bool,
    not_in h fd key values = Ok b ∧
    (b = false ↔ ∃ w, w ∈ values ∧ py_eq h v w = true) ∧
    (∀ s, v = Scalar s → Scalar s ∈ values → b = false).
Proof.
  intros Hfd Hkey Htypes. unfold not_in. rewrite Hfd, Hkey.
  rewrite (check_types_ok _ _ Htypes). cbn [mbind result_bind].
  eexists. split; [reflexivity|].
  assert (Hiff : negb (contains h values v) = false ↔
                 ∃ w, w ∈ values ∧ py_eq h v w = true).
  { rewrite negb_false_iff. unfold contains. rewrite existsb_exists.
    split; intros (w & Hw & Heq); exists w; by rewrite ?list_elem_of_In in *. }
  split; [exact Hiff|].
  intros s -> Hin. apply Hiff. exists (Scalar s). split; [done|].
  apply scalar_eq_refl.
Qed.

Lemma not_in_membership_witness :
  ∃ b : bool,
    not_in heap1 1%positive "label" [Scalar (PyInt 7); Scalar (PyInt 3)] = Ok b ∧
    (b = false ↔
     ∃ w, w ∈ [Scalar (PyInt 7); Scalar (PyInt 3)] ∧
          py_eq heap1 (Scalar (PyInt 3)) w = true) ∧
    (∀ s, Scalar (PyInt 3) = Scalar s →
          Scalar s ∈ [Scalar (PyInt 7); Scalar (PyInt 3)] → b = false).
Proof.
  apply (not_in_membership heap1 1%positive {[ "label" := Scalar (PyInt 3) ]}
           "label" (Scalar (PyInt 3))).
  - reflexivity.
  - reflexivity.
  - intros val Hval.
    repeat (apply elem_of_cons in Hval as [-> | Hval]; [reflexivity|]).
    by apply elem_of_nil in Hval.
Defined.

(** X2.  A value that is not an instance of the type of the field makes
    [not_in] raise [TypeError], whether or not the field's value is among
    the values. *)
Theorem not_in_type_error (h : heap) (fd : loc) (d : gmap string value)
    (key : string) (v val : value) (values : list value) :
  dicts h !! fd = Some d →
  d !! key = Some v →
  val ∈ values →
  isinstance val (type_of v) = false →
  not_in h fd key values = Raise TypeError.
Proof.
  intros Hfd Hkey Hin Hval. unfold not_in. rewrite Hfd, Hkey.
  by rewrite (check_types_mismatch _ _ _ Hin Hval).
Qed.

Lemma not_in_type_error_witness :
  not_in heap1 1%positive "label" [Scalar (PyInt 3); Scalar (PyStr "3")]
    = Raise TypeError.
Proof.
  apply (not_in_type_error heap1 1%positive {[ "label" := Scalar (PyInt 3) ]}
           "label" (Scalar (PyInt 3)) (Scalar (PyStr "3"))).
  - reflexivity.
  - reflexivity.
  - right. left.
  - reflexivity.
Defined.

(** ** [scrub] *)

Lemma filter_all (keep : scalar → bool) (xs : list scalar) :
  (∀ x, x ∈ xs → keep x = true) → List.filter keep xs = xs.
Proof.
  induction xs as [|x xs IH]; intros Hall; [done|]. simpl.
  rewrite (Hall x) by left. f_equal. apply IH. intros y Hy. apply Hall. by right.
Qed.

Lemma filter_filter (f g : scalar → bool) (xs : list scalar) :
  List.filter g (List.filter f xs) = List.filter (λ x, f x && g x) xs.
Proof.
  induction xs as [|x xs IH]; [done|]. simpl.
  destruct (f x); simpl; [destruct (g x)|]; by rewrite IH.
Qed.

(** The run of [scrub] on a list field: it succeeds as soon as the values
    have the type of the first element (nothing is asked when the values or
    the list are empty), the field of the returned record refers to the
    filtered list, and every object of the heap is still there, unchanged. *)
Lemma scrub_run (h : heap) (fd : loc) (d : gmap string value)
    (key : string) (l : loc) (xs : list scalar) (values : list value) :
  dicts h !! fd = Some d →
  d !! key = Some (Ref l) →
  lists h !! l = Some xs →
  (∀ x0 val, head xs = Some x0 → val ∈ values →
             isinstance val (type_of_scalar x0) = true) →
  ∃ h' fd' d' l',
    scrub h fd key values = Ok (h', fd') ∧
    dicts h' !! fd' = Some d' ∧
    d' !! key = Some (Ref l') ∧
    lists h' !! l' =
      Some (List.filter (λ x, negb (contains h values (Scalar x))) xs) ∧
    (∀ p o, dicts h !! p = Some o → dicts h' !! p = Some o) ∧
    (∀ p o, lists h !! p = Some o → lists h' !! p = Some o).
Proof.
  intros Hfd Hkey Hl Htypes. unfold scrub. rewrite Hfd, Hkey, Hl.
  destruct values as [|w ws].
  { exists h, fd, d, l. split; [done|]. split; [done|]. split; [done|].
    split; [|done]. rewrite Hl. f_equal. symmetry. by apply filter_all. }
  destruct xs as [|x0 xs'].
  { exists h, fd, d, l. split; [done|]. split; [done|]. split; [done|].
    by split. }
  change ((length (w :: ws) =? 0)%nat || (length (x0 :: xs') =? 0)%nat)
    with false. cbv iota.
  rewrite (check_types_ok _ (w :: ws)) by (intros val; by apply Htypes).
  unfold dict_copy, list_alloc, dict_setitem; cbn [mbind result_bind dicts lists].
  set (fd' := fresh (dom (dicts h))).
  set (l' := fresh (dom (lists h))).
  set (h1 := Heap _ (lists h)).
  eexists _, fd', (<[key := Ref l']> d), l'.
  split; [reflexivity|]. cbn [dicts lists].
  split. { by rewrite lookup_alter_eq, lookup_insert_eq. }
  split. { by rewrite lookup_insert_eq. }
  split.
  { rewrite lookup_insert_eq. reflexivity. }
  split.
  - intros p o Hp.
    assert (fd' ≠ p) by (intros <-; unfold fd' in Hp; by rewrite fresh_dict_loc in Hp).
    by rewrite lookup_alter_ne, lookup_insert_ne.
  - intros p o Hp.
    assert (l' ≠ p) by (intros <-; unfold l' in Hp; by rewrite fresh_list_loc in Hp).
    by rewrite lookup_insert_ne.
Qed.

Lemma field_list_lookup (h : heap) (fd : loc) (d : gmap string value)
    (key : string) (l : loc) :
  dicts h !! fd = Some d → d !! key = Some (Ref l) →
  field_list h fd key = lists h !! l.
Proof. intros Hfd Hkey. unfold field_list. by rewrite Hfd; simpl; rewrite Hkey. Qed.

(** X3.  On a non-empty list field and non-empty values, one value that is
    not an instance of the type of the first element of the list makes
    [scrub] raise [TypeError]. *)
Theorem scrub_type_error (h : heap) (fd : loc) (d : gmap string value)
    (key : string) (l : loc) (x0 : scalar) (xs : list scalar)
    (val : value) (values : list value) :
  dicts h !! fd = Some d →
  d !! key = Some (Ref l) →
  lists h !! l = Some (x0 :: xs) →
  val ∈ values →
  isinstance val (type_of_scalar x0) = false →
  scrub h fd key values = Raise TypeError.
Proof.
  intros Hfd Hkey Hl Hin Hval. unfold scrub. rewrite Hfd, Hkey, Hl.
  destruct values as [|w ws]; [by apply elem_of_nil in Hin|].
  change ((length (w :: ws) =? 0)%nat || (length (x0 :: xs) =? 0)%nat)
    with false. cbv iota.
  by rewrite (check_types_mismatch _ _ _ Hin Hval).
Qed.

Lemma scrub_type_error_witness :
  scrub heap0 1%positive "bg_labels" [Scalar (PyStr "unknown"); Scalar (PyInt 0)]
    = Raise TypeError.
Proof.
  apply (scrub_type_error heap0 1%positive
           {[ "filename" := Scalar (PyStr "XC1.wav");
              "bg_labels" := Ref 1%positive ]}
           "bg_labels" 1%positive (PyStr "amecro")
           [PyStr "unknown"; PyStr "amecro"; PyStr "houspa"]
           (Scalar (PyInt 0))).
  - reflexivity.
  - reflexivity.
  - reflexivity.
  - right. left.
  - reflexivity.
Defined.

(** X4.  Scrubbing values none of which occurs in the list still returns a
    new record with a new list, but the new list has the elements of the
    old one, in the same order. *)
Theorem scrub_absent_values (h : heap) (fd : loc) (d : gmap string value)
    (key : string) (l : loc) (x0 : scalar) (xs : list scalar)
    (values : list value) :
  dicts h !! fd = Some d →
  d !! key = Some (Ref l) →
  lists h !! l = Some (x0 :: xs) →
  values ≠ [] →
  (∀ val, val ∈ values → isinstance val (type_of_scalar x0) = true) →
  (∀ x, x ∈ x0 :: xs → contains h values (Scalar x) = false) →
  ∃ h' fd',
    scrub h fd key values = Ok (h', fd') ∧
    fd' ≠ fd ∧
    field_list h' fd' key = Some (x0 :: xs) ∧
    field_list h' fd key = Some (x0 :: xs).
Proof.
  intros Hfd Hkey Hl Hne Htypes Habsent.
  destruct (scrub_run h fd d key l (x0 :: xs) values Hfd Hkey Hl)
    as (h' & fd' & d' & l' & Hrun & Hfd' & Hkey' & Hl' & Hdicts & Hlists).
  { intros y val [= <-]. apply Htypes. }
  exists h', fd'. split; [done|]. split.
  { intros ->. revert Hrun. unfold scrub. rewrite Hfd, Hkey, Hl.
    destruct values as [|w ws]; [done|].
    change ((length (w :: ws) =? 0)%nat || (length (x0 :: xs) =? 0)%nat)
      with false. cbv iota.
    rewrite (check_types_ok _ (w :: ws)) by done.
    unfold dict_copy, list_alloc, dict_setitem; cbn [mbind result_bind dicts lists].
    intros [= _ Hfresh]. pose proof (fresh_dict_loc h) as Hnone.
    rewrite Hfresh in Hnone. by rewrite Hfd in Hnone. }
  split.
  - rewrite (field_list_lookup _ _ _ _ _ Hfd' Hkey'), Hl'. f_equal.
    apply filter_all. intros x Hx. by rewrite (Habsent x Hx).
  - rewrite (field_list_lookup _ _ _ _ _ (Hdicts _ _ Hfd) Hkey).
    by apply Hlists.
Qed.

Lemma scrub_absent_values_witness :
  ∃ h' fd',
    scrub heap0 1%positive "bg_labels" [Scalar (PyStr "comrav")] = Ok (h', fd') ∧
    fd' ≠ 1%positive ∧
    field_list h' fd' "bg_labels"
      = Some [PyStr "amecro"; PyStr "unknown"; PyStr "amecro"; PyStr "houspa"] ∧
    field_list h' 1%positive "bg_labels"
      = Some [PyStr "amecro"; PyStr "unknown"; PyStr "amecro"; PyStr "houspa"].
Proof.
  apply (scrub_absent_values heap0 1%positive
           {[ "filename" := Scalar (PyStr "XC1.wav");
              "bg_labels" := Ref 1%positive ]}
           "bg_labels" 1%positive).
  - reflexivity.
  - reflexivity.
  - reflexivity.
  - discriminate.
  - intros val Hval. apply list_elem_of_singleton in Hval. by subst val.
  - intros x Hx.
    repeat (apply elem_of_cons in Hx as [-> | Hx]; [reflexivity|]).
    by apply elem_of_nil in Hx.
Defined.

(** Lists whose elements all have the type [T]. *)
Lemma filter_Forall_type (T : pytype) (keep : scalar → bool) (xs : list scalar) :
  Forall (λ x, type_of_scalar x = T) xs →
  Forall (λ x, type_of_scalar x = T) (List.filter keep xs).
Proof.
  induction 1 as [|x xs Hx _ IH]; simpl; [constructor|].
  destruct (keep x); [by constructor | done].
Qed.

Lemma head_type (T : pytype) (xs : list scalar) (x0 : scalar) :
  Forall (λ x, type_of_scalar x = T) xs → head xs = Some x0 →
  type_of_scalar x0 = T.
Proof. intros Hall Hhead. destruct Hall; simplify_eq/=. done. Qed.

(** X5.  On a list whose elements all have one type [T], with values that
    are instances of [T], scrubbing twice with the same values gives the
    list the first scrubbing gave: the second call succeeds and removes
    nothing more. *)
Theorem scrub_idempotent (h : heap) (fd : loc) (d : gmap string value)
    (key : string) (l : loc) (xs : list scalar) (values : list value)
    (T : pytype) :
  dicts h !! fd = Some d →
  d !! key = Some (Ref l) →
  lists h !! l = Some xs →
  Forall (λ x, type_of_scalar x = T) xs →
  (∀ val, val ∈ values → isinstance val T = true) →
  ∃ h1 fd1 h2 fd2 ys,
    scrub h fd key values = Ok (h1, fd1) ∧
    field_list h1 fd1 key = Some ys ∧
    scrub h1 fd1 key values = Ok (h2, fd2) ∧
    field_list h2 fd2 key = Some ys.
Proof.
  intros Hfd Hkey Hl Hxs Htypes.
  destruct (scrub_run h fd d key l xs values Hfd Hkey Hl)
    as (h1 & fd1 & d1 & l1 & Hrun1 & Hfd1 & Hkey1 & Hl1 & _ & _).
  { intros x0 val Hhead Hval. rewrite (head_type T xs x0); auto. }
  set (keep := λ x, negb (contains h values (Scalar x))) in *.
  destruct (scrub_run h1 fd1 d1 key l1 (List.filter keep xs) values
              Hfd1 Hkey1 Hl1)
    as (h2 & fd2 & d2 & l2 & Hrun2 & Hfd2 & Hkey2 & Hl2 & _ & _).
  { intros x0 val Hhead Hval.
    rewrite (head_type T (List.filter keep xs) x0); auto.
    by apply filter_Forall_type. }
  exists h1, fd1, h2, fd2, (List.filter keep xs).
  split; [done|]. split.
  { by rewrite (field_list_lookup _ _ _ _ _ Hfd1 Hkey1). }
  split; [done|].
  rewrite (field_list_lookup _ _ _ _ _ Hfd2 Hkey2), Hl2. f_equal.
  rewrite filter_filter. apply List.filter_ext. intros x. unfold keep.
  rewrite (contains_scalar_heap h1 h). by destruct (contains h values (Scalar x)).
Qed.

Lemma scrub_idempotent_witness :
  ∃ h1 fd1 h2 fd2 ys,
    scrub heap0 1%positive "bg_labels" [Scalar (PyStr "amecro")] = Ok (h1, fd1) ∧
    field_list h1 fd1 "bg_labels" = Some ys ∧
    scrub h1 fd1 "bg_labels" [Scalar (PyStr "amecro")] = Ok (h2, fd2) ∧
    field_list h2 fd2 "bg_labels" = Some ys.
Proof.
  apply (scrub_idempotent heap0 1%positive
           {[ "filename" := Scalar (PyStr "XC1.wav");
              "bg_labels" := Ref 1%positive ]}
           "bg_labels" 1%positive
           [PyStr "amecro"; PyStr "unknown"; PyStr "amecro"; PyStr "houspa"]
           [Scalar (PyStr "amecro")] Str).
  - reflexivity.
  - reflexivity.
  - reflexivity.
  - repeat constructor.
  - intros val Hval. apply list_elem_of_singleton in Hval. by subst val.
Defined.

(** Without a common type the second call can fail: after [1] is scrubbed
    from [[1, False]] the list starts with a [bool], of which [1] is not an
    instance. *)
Example scrub_twice_type_error :
  let h := Heap {[ 1%positive := {[ "flags" := Ref 1%positive ]} ]}
                {[ 1%positive := [PyInt 1; PyBool false] ]} in
  ∃ h1 fd1,
    scrub h 1%positive "flags" [Scalar (PyInt 1)] = Ok (h1, fd1) ∧
    field_list h1 fd1 "flags" = Some [PyBool false] ∧
    scrub h1 fd1 "flags" [Scalar (PyInt 1)] = Raise TypeError.
Proof. eexists _, _. split; [vm_compute; reflexivity|]. split; reflexivity. Qed.

(** X6.  On a list whose elements all have one type [T], scrubbing first
    the values [v1] and then the values [v2] (all instances of [T]) leaves
    the list that scrubbing [v1 ++ v2] at once leaves. *)
Theorem scrub_compose (h : heap) (fd : loc) (d : gmap string value)
    (key : string) (l : loc) (xs : list scalar) (v1 v2 : list value)
    (T : pytype) :
  dicts h !! fd = Some d →
  d !! key = Some (Ref l) →
  lists h !! l = Some xs →
  Forall (λ x, type_of_scalar x = T) xs →
  (∀ val, val ∈ v1 ++ v2 → isinstance val T = true) →
  ∃ h1 fd1 h2 fd2 h3 fd3 ys,
    scrub h fd key v1 = Ok (h1, fd1) ∧
    scrub h1 fd1 key v2 = Ok (h2, fd2) ∧
    scrub h fd key (v1 ++ v2) = Ok (h3, fd3) ∧
    field_list h2 fd2 key = Some ys ∧
    field_list h3 fd3 key = Some ys.
Proof.
  intros Hfd Hkey Hl Hxs Htypes.
  destruct (scrub_run h fd d key l xs v1 Hfd Hkey Hl)
    as (h1 & fd1 & d1 & l1 & Hrun1 & Hfd1 & Hkey1 & Hl1 & _ & _).
  { intros x0 val Hhead Hval. rewrite (head_type T xs x0); auto.
    apply Htypes, elem_of_app. by left. }
  set (keep1 := λ x, negb (contains h v1 (Scalar x))) in *.
  destruct (scrub_run h1 fd1 d1 key l1 (List.filter keep1 xs) v2
              Hfd1 Hkey1 Hl1)
    as (h2 & fd2 & d2 & l2 & Hrun2 & Hfd2 & Hkey2 & Hl2 & _ & _).
  { intros x0 val Hhead Hval.
    rewrite (head_type T (List.filter keep1 xs) x0);
      [|by apply filter_Forall_type|done].
    apply Htypes, elem_of_app. by right. }
  destruct (scrub_run h fd d key l xs (v1 ++ v2) Hfd Hkey Hl)
    as (h3 & fd3 & d3 & l3 & Hrun3 & Hfd3 & Hkey3 & Hl3 & _ & _).
  { intros x0 val Hhead Hval. rewrite (head_type T xs x0); auto. }
  exists h1, fd1, h2, fd2, h3, fd3,
    (List.filter (λ x, negb (contains h (v1 ++ v2) (Scalar x))) xs).
  split; [done|]. split; [done|]. split; [done|]. split.
  - rewrite (field_list_lookup _ _ _ _ _ Hfd2 Hkey2), Hl2. f_equal.
    rewrite filter_filter. apply List.filter_ext. intros x. unfold keep1.
    rewrite (contains_scalar_heap h1 h), contains_app.
    by destruct (contains h v1 (Scalar x)), (contains h v2 (Scalar x)).
  - by rewrite (field_list_lookup _ _ _ _ _ Hfd3 Hkey3).
Qed.

Lemma scrub_compose_witness :
  ∃ h1 fd1 h2 fd2 h3 fd3 ys,
    scrub heap0 1%positive "bg_labels" [Scalar (PyStr "amecro")] = Ok (h1, fd1) ∧
    scrub h1 fd1 "bg_labels" [Scalar (PyStr "houspa")] = Ok (h2, fd2) ∧
    scrub heap0 1%positive "bg_labels"
      ([Scalar (PyStr "amecro")] ++ [Scalar (PyStr "houspa")]) = Ok (h3, fd3) ∧
    field_list h2 fd2 "bg_labels" = Some ys ∧
    field_list h3 fd3 "bg_labels" = Some ys.
Proof.
  apply (scrub_compose heap0 1%positive
           {[ "filename" := Scalar (PyStr "XC1.wav");
              "bg_labels" := Ref 1%positive ]}
           "bg_labels" 1%positive
           [PyStr "amecro"; PyStr "unknown"; PyStr "amecro"; PyStr "houspa"]
           [Scalar (PyStr "amecro")] [Scalar (PyStr "houspa")] Str).
  - reflexivity.
  - reflexivity.
  - reflexivity.
  - repeat constructor.
  - intros val Hval.
    repeat (apply elem_of_cons in Hval as [-> | Hval]; [reflexivity|]).
    by apply elem_of_nil in Hval.
Defined.

End FilterScrubExtras.

(* ===================================================================== *)
(** * Further properties of pipeline.py *)
(* ===================================================================== *)

Module PipelineExtras.
Import Pipeline PipelineFacts.
Local Open Scope Z_scope.

(** ** [_trim] *)

(** X7.  When the audio is longer than the window, [_trim] pads nothing:
    the result is the run of [window_size] consecutive samples of the audio
    that starts at [start_index].  The end index stays below the length of
    the audio, so the last sample of the audio is in no crop. *)
Theorem trim_long_clip (audio : list Qc) (window_size bits : Z) :
  0 ≤ window_size < Z.of_nat (length audio) →
  ∃ trimmed start_index,
    _trim audio window_size bits
      = Some (trimmed, start_index, start_index + window_size) ∧
    0 ≤ start_index ∧
    start_index + window_size < Z.of_nat (length audio) ∧
    trimmed = take (Z.to_nat window_size) (drop (Z.to_nat start_index) audio) ∧
    ∀ i : nat, Z.of_nat i < window_size →
      trimmed !! i = audio !! (Z.to_nat start_index + i)%nat ∧
      is_Some (trimmed !! i).
Proof.
  intros [Hws Hlong].
  destruct (trim_run audio window_size bits Hws)
    as (start_index & extracted & Hstart & Hextracted & Hrun).
  assert (Hlen : length extracted = Z.to_nat window_size).
  { rewrite Hextracted, length_take, length_drop. lia. }
  rewrite Hlen, Nat.sub_diag in Hrun. cbn [replicate] in Hrun.
  rewrite app_nil_r in Hrun.
  exists extracted, start_index. split; [done|].
  split; [lia|]. split; [lia|]. split; [done|].
  intros i Hi. split.
  - rewrite Hextracted, lookup_take_lt by lia. by rewrite lookup_drop.
  - apply lookup_lt_is_Some. lia.
Qed.

Lemma trim_long_clip_witness :
  ∃ trimmed start_index,
    _trim clip3 2 5 = Some (trimmed, start_index, start_index + 2) ∧
    0 ≤ start_index ∧
    start_index + 2 < Z.of_nat (length clip3) ∧
    trimmed = take (Z.to_nat 2) (drop (Z.to_nat start_index) clip3) ∧
    ∀ i : nat, Z.of_nat i < 2 →
      trimmed !! i = clip3 !! (Z.to_nat start_index + i)%nat ∧
      is_Some (trimmed !! i).
Proof. apply (trim_long_clip clip3 2 5). simpl. lia. Defined.

(** X8.  Within the [int32] range (the window size, the length of the
    audio and their difference fit in [int32], so that no index wraps
    around), a negative window size is the one error of [_trim]: whatever
    the random bits, [_trim] fails exactly when the window size is negative
    (the padding it asks for is then negative). *)
Theorem trim_fails_iff_negative_window (audio : list Qc)
    (window_size bits : Z) :
  window_size < 2 ^ 31 →
  Z.of_nat (length audio) < 2 ^ 31 →
  - 2 ^ 31 < window_size - Z.of_nat (length audio) →
  _trim audio window_size bits = None ↔ window_size < 0.
Proof.
  intros _ _ _. split.
  - intros Hnone. destruct (Z.lt_ge_cases window_size 0) as [|Hws]; [done|].
    destruct (trim_run audio window_size bits Hws)
      as (start_index & extracted & _ & _ & Hrun).
    congruence.
  - apply trim_negative_window.
Qed.

Lemma trim_fails_iff_negative_window_witness :
  _trim clip3 (-1) 5 = None ↔ -1 < 0.
Proof. apply (trim_fails_iff_negative_window clip3 (-1) 5); simpl; lia. Defined.

(** X9.  For a tensor and a window size that fit in [int32], every [int32]
    value [_trim] computes (the difference of the lengths, the start and
    end indices, the padding length) is in the [int32] range: no index
    wraps around. *)
Theorem trim_no_overflow (audio : list Qc) (window_size bits : Z) :
  0 ≤ window_size < 2 ^ 31 →
  Z.of_nat (length audio) < 2 ^ 31 →
  ∃ trimmed start_index end_index,
    _trim audio window_size bits = Some (trimmed, start_index, end_index) ∧
    - 2 ^ 31 ≤ Z.of_nat (length audio) - window_size < 2 ^ 31 ∧
    0 ≤ Z.max (Z.of_nat (length audio) - window_size) 1 < 2 ^ 31 ∧
    0 ≤ start_index < 2 ^ 31 ∧
    0 ≤ end_index < 2 ^ 31 ∧
    0 ≤ window_size
        - Z.of_nat (length (slice audio start_index (start_index + window_size)))
      < 2 ^ 31.
Proof.
  intros Hws HL.
  destruct (trim_run audio window_size bits (proj1 Hws))
    as (start_index & extracted & Hstart & Hextracted & Hrun).
  eexists _, start_index, _. split; [exact Hrun|].
  rewrite slice_length by lia. lia.
Qed.

Lemma trim_no_overflow_witness :
  ∃ trimmed start_index end_index,
    _trim clip3 5 7 = Some (trimmed, start_index, end_index) ∧
    - 2 ^ 31 ≤ Z.of_nat (length clip3) - 5 < 2 ^ 31 ∧
    0 ≤ Z.max (Z.of_nat (length clip3) - 5) 1 < 2 ^ 31 ∧
    0 ≤ start_index < 2 ^ 31 ∧
    0 ≤ end_index < 2 ^ 31 ∧
    0 ≤ 5 - Z.of_nat (length (slice clip3 start_index (start_index + 5)))
      < 2 ^ 31.
Proof. apply (trim_no_overflow clip3 5 7); simpl; lia. Defined.

Local Open Scope Qc_scope.

(** ** [process_audio] *)

(** X11.  [process_audio] touches two fields only: when it succeeds, the
    result has the fields of the input, and every field other than [audio]
    and [source_audio] holds the tensor it held. *)
Theorem process_audio_frame (example : record) (info : DatasetInfo)
    (window_size_s : Z) (min_gain max_gain : Qc) (bits : Z) (u : Qc)
    (out : record) :
  process_audio example info window_size_s min_gain max_gain bits u = Some out →
  dom out = dom example ∧
  ∀ key, key ≠ "audio" → key ≠ "source_audio" → out !! key = example !! key.
Proof.
  unfold process_audio. intros Hrun.
  destruct (example !! "audio") as [ta|] eqn:Haudio; [|done].
  destruct ta; try done. cbn [mbind option_bind as_flt1] in Hrun.
  destruct (features_lookup (features info) "audio" ≫= sample_rate_of)
    as [sample_rate|]; [|done]. cbn [mbind option_bind] in Hrun.
  destruct (_trim v _ bits) as [[[trimmed start_ind] end_ind]|]; [|done].
  cbn [mbind option_bind] in Hrun.
  rewrite lookup_insert_eq in Hrun. cbn [mbind option_bind as_flt1] in Hrun.
  destruct (_normalize_audio trimmed _) as [normalized gain_scalar].
  rewrite !lookup_insert_ne in Hrun by done.
  destruct (example !! "source_audio") as [ts|] eqn:Hsource; [|done].
  destruct ts; try done. cbn [mbind option_bind as_flt2] in Hrun.
  apply (inj Some) in Hrun. subst out. split.
  - rewrite dom_insert_lookup_L
      by (rewrite !lookup_insert_ne by done; rewrite Hsource; eauto).
    rewrite dom_insert_lookup_L by (rewrite lookup_insert_eq; eauto).
    apply dom_insert_lookup_L. rewrite Haudio. eauto.
  - intros key Ha Hs. by rewrite !lookup_insert_ne.
Qed.

Lemma process_audio_frame_witness :
  ∃ out : record,
    process_audio mixed0 info0 1 (Q2Qc (1 # 4)) (Q2Qc (1 # 2)) 7 (Q2Qc (1 # 3))
      = Some out ∧
    dom out = dom mixed0 ∧
    ∀ key, key ≠ "audio" → key ≠ "source_audio" → out !! key = mixed0 !! key.
Proof.
  eexists. split; [vm_compute; reflexivity|].
  apply (process_audio_frame mixed0 info0 1 (Q2Qc (1 # 4)) (Q2Qc (1 # 2)) 7
           (Q2Qc (1 # 3))).
  vm_compute. reflexivity.
Defined.

Lemma fmap_scale_zip_with_plus (s : Qc) (r1 r2 : list Qc) :
  map (λ x, x * s) (zip_with Qcplus r1 r2) =
    zip_with Qcplus (map (λ x, x * s) r1) (map (λ x, x * s) r2).
Proof.
  revert r2. induction r1 as [|x r1 IH]; intros [|y r2]; simpl; [done..|].
  rewrite IH. f_equal. ring.
Qed.

(** X12.  Cropping and scaling keep the sources in step with the audio:
    on a record whose two [source_audio] rows add up to [audio], with a
    window not longer than the audio, the two rows of the processed
    [source_audio] add up to the processed [audio]. *)
Theorem process_audio_keeps_source_sum (example : record) (info : DatasetInfo)
    (window_size_s : Z) (min_gain max_gain : Qc) (bits : Z) (u : Qc)
    (r1 r2 : list Qc) (sample_rate : Z) :
  example !! "audio" = Some (Flt1 (zip_with Qcplus r1 r2)) →
  example !! "source_audio" = Some (Flt2 [r1; r2]) →
  length r1 = length r2 →
  features_lookup (features info) "audio" = Some (Audio sample_rate) →
  (0 ≤ window_size_s * sample_rate ≤ Z.of_nat (length r1))%Z →
  ∃ (out : record) (audio' r1' r2' : list Qc),
    process_audio example info window_size_s min_gain max_gain bits u
      = Some out ∧
    out !! "audio" = Some (Flt1 audio') ∧
    out !! "source_audio" = Some (Flt2 [r1'; r2']) ∧
    audio' = zip_with Qcplus r1' r2' ∧
    length r1' = length audio' ∧ length r2' = length audio' ∧
    Z.of_nat (length audio') = (window_size_s * sample_rate)%Z.
Proof.
  intros Haudio Hsource Hlen Hinfo [Hws Hshort].
  set (window_size := (window_size_s * sample_rate)%Z) in *.
  set (audio := zip_with Qcplus r1 r2) in *.
  assert (HL : length audio = length r1).
  { unfold audio. rewrite length_zip_with. lia. }
  destruct (trim_run audio window_size bits Hws)
    as (start_index & extracted & Hstart & Hextracted & Htrim).
  assert (Hfit : (start_index + window_size ≤ Z.of_nat (length audio))%Z) by lia.
  assert (Hext : length extracted = Z.to_nat window_size).
  { rewrite Hextracted, length_take, length_drop. lia. }
  rewrite Hext, Nat.sub_diag in Htrim. cbn [replicate] in Htrim.
  rewrite app_nil_r in Htrim.
  pose proof (process_audio_unfold example info window_size_s min_gain
                max_gain bits u _ _ _ _ _ _ Haudio Hsource Hinfo Htrim) as Hrun.
  destruct (_normalize_audio extracted _) as [normalized scale] eqn:Hnorm.
  cbn [fst snd map] in Hrun.
  assert (Hnormalized : normalized = map (λ x, x * scale) extracted).
  { unfold _normalize_audio in Hnorm. by injection Hnorm as <- <-. }
  rewrite !slice_take_drop in Hrun by lia.
  eexists _, normalized, _, _. split; [exact Hrun|].
  split. { by rewrite lookup_insert_ne, lookup_insert_eq. }
  split. { by rewrite lookup_insert_eq. }
  split.
  { rewrite Hnormalized, Hextracted. unfold audio.
    by rewrite zip_with_drop, zip_with_take, fmap_scale_zip_with_plus. }
  rewrite Hnormalized, !length_map, Hext, !length_take, !length_drop. lia.
Qed.

Lemma process_audio_keeps_source_sum_witness :
  ∃ (out : record) (audio' r1' r2' : list Qc),
    process_audio mixed0 info0 1 (Q2Qc (1 # 4)) (Q2Qc (1 # 2)) 7 (Q2Qc (1 # 3))
      = Some out ∧
    out !! "audio" = Some (Flt1 audio') ∧
    out !! "source_audio" = Some (Flt2 [r1'; r2']) ∧
    audio' = zip_with Qcplus r1' r2' ∧
    length r1' = length audio' ∧ length r2' = length audio' ∧
    Z.of_nat (length audio') = (1 * 2)%Z.
Proof.
  apply (process_audio_keeps_source_sum mixed0 info0 1 (Q2Qc (1 # 4))
           (Q2Qc (1 # 2)) 7 (Q2Qc (1 # 3)) clip3 [0; 0; 0] 2).
  - reflexivity.
  - reflexivity.
  - reflexivity.
  - reflexivity.
  - simpl. lia.
Defined.

(** ** [multi_hot] *)

Local Open Scope Z_scope.

Lemma multi_hot_field_dom (example out : record) (key : string) (f : feature) :
  multi_hot_field example key f = Some out → dom out = dom example.
Proof.
  unfold multi_hot_field. intros Hrun.
  destruct f as [n | [n | | | |] | | |]; try by injection Hrun as <-.
  destruct (example !! key) as [t|] eqn:Hkey; [|done].
  destruct t; try done. cbn in Hrun. injection Hrun as <-.
  apply dom_insert_lookup_L. eauto.
Qed.

Lemma multi_hot_loop_dom (items : list (string * feature)) (example out : record) :
  multi_hot_loop example items = Some out → dom out = dom example.
Proof.
  revert example. induction items as [|[k f] items IH]; intros example Hrun.
  - by injection Hrun as <-.
  - cbn [multi_hot_loop] in Hrun.
    destruct (multi_hot_field example k f) as [example'|] eqn:Hstep; [|done].
    cbn [mbind option_bind] in Hrun.
    rewrite (IH _ Hrun). by apply multi_hot_field_dom in Hstep.
Qed.

(** X13.  When [multi_hot] succeeds, the input had the fields [filename],
    [label_str] and [audio], the fields of the result are those of the
    input without [filename] and [label_str] and with [source_audio], and
    [multi_hot] fails on the result: it cannot be applied twice. *)
Theorem multi_hot_fields (example out : record) (info : DatasetInfo) :
  multi_hot example info = Some out →
  {[ "filename"; "label_str"; "audio" ]} ⊆ dom example ∧
  dom out = {[ "source_audio" ]} ∪ (dom example ∖ {[ "filename"; "label_str" ]}) ∧
  ∀ info', multi_hot out info' = None.
Proof.
  unfold multi_hot, del. intros Hrun.
  destruct (example !! "filename") as [tf|] eqn:Hfilename; [|done].
  cbn [mbind option_bind] in Hrun. rewrite lookup_delete_ne in Hrun by done.
  destruct (example !! "label_str") as [tl|] eqn:Hlabel; [|done].
  cbn [mbind option_bind] in Hrun.
  destruct (multi_hot_loop _ (features info)) as [looped|] eqn:Hloop; [|done].
  cbn [mbind option_bind] in Hrun.
  destruct (looped !! "audio") as [ta|] eqn:Haudio; [|done].
  cbn [mbind option_bind] in Hrun.
  destruct (expand_dims ta) as [ts|]; [|done].
  apply (inj Some) in Hrun. subst out.
  apply multi_hot_loop_dom in Hloop as Hdom.
  rewrite !dom_delete_L in Hdom.
  assert (Hin : "audio" ∈ dom looped) by (apply elem_of_dom; eauto).
  assert (Hf : "filename" ∈ dom example) by (apply elem_of_dom; eauto).
  assert (Hl : "label_str" ∈ dom example) by (apply elem_of_dom; eauto).
  split; [|split].
  - rewrite Hdom in Hin. intros k Hk.
    apply elem_of_union in Hk as [Hk | Hk];
      [apply elem_of_union in Hk as [Hk | Hk]|];
      apply elem_of_singleton in Hk as ->; [done..|].
    apply elem_of_difference in Hin as [Hin _].
    by apply elem_of_difference in Hin as [Hin _].
  - rewrite dom_insert_L, Hdom. f_equal. apply set_eq. intros k.
    rewrite !elem_of_difference, elem_of_union, !elem_of_singleton. tauto.
  - intros info'.
    assert (Hgone : (<["source_audio" := ts]> looped) !! "filename" = None).
    { rewrite lookup_insert_ne by done. apply not_elem_of_dom.
      rewrite Hdom. rewrite !elem_of_difference, elem_of_singleton. tauto. }
    by rewrite Hgone.
Qed.

Lemma multi_hot_fields_witness :
  ∃ out : record,
    multi_hot raw0 info0 = Some out ∧
    {[ "filename"; "label_str"; "audio" ]} ⊆ dom raw0 ∧
    dom out = {[ "source_audio" ]} ∪ (dom raw0 ∖ {[ "filename"; "label_str" ]}) ∧
    ∀ info', multi_hot out info' = None.
Proof.
  eexists. split; [vm_compute; reflexivity|].
  apply (multi_hot_fields raw0 _ info0). vm_compute. reflexivity.
Defined.

(** X14.  The encoding of a field depends on the set of classes only: two
    sequences of indices with the same classes of the vocabulary, in any
    order and with any repetitions, are encoded alike. *)
Theorem multi_hot_field_set (example : record) (key : string) (n : nat)
    (l1 l2 : list Z) :
  (∀ c, 0 ≤ c < Z.of_nat n → c ∈ l1 ↔ c ∈ l2) →
  multi_hot_field (<[key := Int1 l1]> example) key (Sequence (ClassLabel n)) =
  multi_hot_field (<[key := Int1 l2]> example) key (Sequence (ClassLabel n)).
Proof.
  intros Hsame. unfold multi_hot_field. rewrite !lookup_insert_eq.
  cbn [mbind option_bind as_int1]. rewrite !insert_insert_eq. do 3 f_equal.
  rewrite !multi_hot_vector_eq. apply map_ext_in. intros j Hj.
  apply in_seq in Hj.
  destruct (decide (Z.of_nat j ∈ l1)) as [H1|H1],
           (decide (Z.of_nat j ∈ l2)) as [H2|H2]; try done;
    exfalso; [apply H2 | apply H1]; apply (Hsame (Z.of_nat j)); (lia || done).
Qed.

Lemma multi_hot_field_set_witness :
  multi_hot_field (<["bg_labels" := Int1 [2; 0; 2; 7]]> raw0) "bg_labels"
    (Sequence (ClassLabel 3)) =
  multi_hot_field (<["bg_labels" := Int1 [0; -1; 2]]> raw0) "bg_labels"
    (Sequence (ClassLabel 3)).
Proof.
  apply (multi_hot_field_set raw0 "bg_labels" 3 [2; 0; 2; 7] [0; -1; 2]).
  intros c Hc.
  assert (c = 0 ∨ c = 1 ∨ c = 2) as [-> | [-> | ->]] by lia;
    split; intros Hin;
    repeat (apply elem_of_cons in Hin as [Hin | Hin]; [try discriminate Hin|]);
    try (by apply elem_of_nil in Hin);
    apply (bool_decide_unpack _); vm_compute; exact I.
Defined.

(** X15.  Mixing is the union of the label sets: the elementwise maximum
    [_mix_audio] takes of the encodings of two sequences of indices is the
    encoding of the two sequences put together. *)
Theorem mix_of_encodings (l1 l2 : list Z) (n : nat) :
  reduce_max_axis0
    (Int2 [clip_by_value (reduce_sum_axis0 n (one_hot l1 n)) 0 1;
           clip_by_value (reduce_sum_axis0 n (one_hot l2 n)) 0 1]) =
  Some (Int1 (clip_by_value (reduce_sum_axis0 n (one_hot (l1 ++ l2) n)) 0 1)).
Proof.
  cbn [reduce_max_axis0 foldl]. do 2 f_equal.
  rewrite !multi_hot_vector_eq.
  induction (seq 0 n) as [|j js IH]; [done|]. cbn [map zip_with].
  rewrite IH. f_equal.
  destruct (decide (Z.of_nat j ∈ l1)) as [H1|H1],
           (decide (Z.of_nat j ∈ l2)) as [H2|H2];
    [rewrite decide_True by (apply elem_of_app; auto)..
    |rewrite decide_False by (rewrite elem_of_app; tauto)]; done.
Qed.

(** ** The reducer *)

Local Open Scope Qc_scope.

Lemma fmap_div_zip_with_plus (k : Qc) (r1 r2 : list Qc) :
  zip_with Qcplus (map (λ x, x / k) r1) (map (λ x, x / k) r2) =
    map (λ x, x / k) (zip_with Qcplus r1 r2).
Proof.
  revert r2. induction r1 as [|x r1 IH]; intros [|y r2]; simpl; [done..|].
  rewrite IH. f_equal. unfold Qcdiv. ring.
Qed.

Lemma zip_with_plus_zeros (a : list Qc) :
  zip_with Qcplus a (map (λ _, 0) a) = a.
Proof. induction a as [|x a IH]; [done|]. simpl. rewrite IH. f_equal. ring. Qed.

(** X16.  The sources of a reduced record add up to its audio: on a pair of
    single-source records (mixing path) and on a single record (path of
    key 0), the two rows of the output's [source_audio] have the length of
    the output's [audio] and their elementwise sum is that [audio]. *)
Theorem reducer_sources_sum_to_audio :
  (∀ (key : Z) (e1 e2 : record) (a1 a2 : list Qc)
     (labels1 labels2 : string → list Z),
     key ≠ 0%Z →
     single_source e1 a1 labels1 →
     single_source e2 a2 labels2 →
     is_Some (stack_examples [e1; e2]) →
     ∃ (out : record) (audio r1 r2 : list Qc),
       reduce_func key [e1; e2] = Some [out] ∧
       out !! "audio" = Some (Flt1 audio) ∧
       out !! "source_audio" = Some (Flt2 [r1; r2]) ∧
       length r1 = length audio ∧ length r2 = length audio ∧
       zip_with Qcplus r1 r2 = audio) ∧
  (∀ (e : record) (a : list Qc) (labels : string → list Z),
     single_source e a labels →
     is_Some (stack_examples [e]) →
     ∃ (out : record) (audio r1 r2 : list Qc),
       reduce_func 0 [e] = Some [out] ∧
       out !! "audio" = Some (Flt1 audio) ∧
       out !! "source_audio" = Some (Flt2 [r1; r2]) ∧
       length r1 = length audio ∧ length r2 = length audio ∧
       zip_with Qcplus r1 r2 = audio).
Proof.
  split.
  - intros key e1 e2 a1 a2 labels1 labels2 Hkey H1 H2 Hstack.
    destruct (reduce_pair key e1 e2 a1 a2 labels1 labels2 Hkey H1 H2 Hstack)
      as (out & Hout & Hsource & Haudio & Hlen & _).
    eexists out, _, _, _. split; [done|]. split; [exact Haudio|].
    split; [exact Hsource|].
    rewrite !length_map, length_zip_with.
    split; [lia|]. split; [lia|]. apply fmap_div_zip_with_plus.
  - intros e a labels He Hstack.
    destruct (reduce_single e a labels He Hstack)
      as (out & Hout & Hsource & Haudio & _).
    eexists out, _, _, _. split; [done|]. split; [exact Haudio|].
    split; [exact Hsource|].
    rewrite !length_map. split; [done|]. split; [done|].
    cbn [map]. rewrite fmap_div_zip_with_plus. f_equal.
    apply zip_with_plus_zeros.
Qed.

Lemma reducer_sources_sum_to_audio_witness :
  (∃ (out : record) (audio r1 r2 : list Qc),
     reduce_func 1 [rec1; rec2] = Some [out] ∧
     out !! "audio" = Some (Flt1 audio) ∧
     out !! "source_audio" = Some (Flt2 [r1; r2]) ∧
     length r1 = length audio ∧ length r2 = length audio ∧
     zip_with Qcplus r1 r2 = audio) ∧
  (∃ (out : record) (audio r1 r2 : list Qc),
     reduce_func 0 [rec1] = Some [out] ∧
     out !! "audio" = Some (Flt1 audio) ∧
     out !! "source_audio" = Some (Flt2 [r1; r2]) ∧
     length r1 = length audio ∧ length r2 = length audio ∧
     zip_with Qcplus r1 r2 = audio).
Proof.
  split.
  - apply (proj1 reducer_sources_sum_to_audio 1%Z rec1 rec2
             [Q2Qc 1; Q2Qc 2] [Q2Qc 3; Q2Qc 5]
             (labels_of rec1) (labels_of rec2)).
    + discriminate.
    + exact single_source_rec1.
    + exact single_source_rec2.
    + eexists. vm_compute. reflexivity.
  - apply (proj2 reducer_sources_sum_to_audio rec1 [Q2Qc 1; Q2Qc 2]
             (labels_of rec1)).
    + exact single_source_rec1.
    + eexists. vm_compute. reflexivity.
Defined.

Lemma zip_with_max_multi_hot (v w : list Z) :
  is_multi_hot v → is_multi_hot w → is_multi_hot (zip_with Z.max v w).
Proof.
  intros Hv. revert w. induction Hv as [|b v Hb _ IH]; intros w Hw;
    [constructor|].
  destruct Hw as [|c w Hc Hw]; [constructor|]. simpl. constructor; [|by apply IH].
  destruct Hb as [-> | ->], Hc as [-> | ->]; auto.
Qed.

(** X17.  The mixing path keeps the shape of the label fields: on a pair of
    single-source records, every label field of the output is again a
    multi-hot vector, as long as the two vectors it comes from, with a bit
    set exactly where one of them has it set. *)
Theorem reducer_labels_stay_multi_hot (key : Z) (e1 e2 : record)
    (a1 a2 : list Qc) (labels1 labels2 : string → list Z) :
  key ≠ 0%Z →
  single_source e1 a1 labels1 →
  single_source e2 a2 labels2 →
  is_Some (stack_examples [e1; e2]) →
  ∃ out : record,
    reduce_func key [e1; e2] = Some [out] ∧
    ∀ k, k ∈ label_keys →
      ∃ v, out !! k = Some (Int1 v) ∧
           is_multi_hot v ∧
           length v = length (labels1 k) ∧ length v = length (labels2 k) ∧
           ∀ (j : nat) (b1 b2 : Z),
             labels1 k !! j = Some b1 → labels2 k !! j = Some b2 →
             (v !! j = Some 1%Z ↔ b1 = 1%Z ∨ b2 = 1%Z).
Proof.
  intros Hkey H1 H2 Hstack.
  destruct (reduce_pair key e1 e2 a1 a2 labels1 labels2 Hkey H1 H2 Hstack)
    as (out & Hout & _ & _ & _ & Hlabels).
  exists out. split; [done|]. intros k Hk.
  destruct (Hlabels k Hk) as [Hlookup Hlen].
  destruct H1 as (_ & _ & H1), H2 as (_ & _ & H2).
  destruct (H1 k Hk) as [_ Hbits1], (H2 k Hk) as [_ Hbits2].
  eexists. split; [exact Hlookup|].
  split; [by apply zip_with_max_multi_hot|].
  rewrite length_zip_with. split; [lia|]. split; [lia|].
  intros j b1 b2 Hj1 Hj2. rewrite lookup_zip_with, Hj1, Hj2. simpl.
  assert (Hb1 : b1 = 0%Z ∨ b1 = 1%Z).
  { eapply Forall_lookup_1 in Hbits1; eauto. }
  assert (Hb2 : b2 = 0%Z ∨ b2 = 1%Z).
  { eapply Forall_lookup_1 in Hbits2; eauto. }
  split.
  - intros [= Hmax]. lia.
  - intros Hor. f_equal. lia.
Qed.

Lemma reducer_labels_stay_multi_hot_witness :
  ∃ out : record,
    reduce_func 1 [rec1; rec2] = Some [out] ∧
    ∀ k, k ∈ label_keys →
      ∃ v, out !! k = Some (Int1 v) ∧
           is_multi_hot v ∧
           length v = length (labels_of rec1 k) ∧
           length v = length (labels_of rec2 k) ∧
           ∀ (j : nat) (b1 b2 : Z),
             labels_of rec1 k !! j = Some b1 → labels_of rec2 k !! j = Some b2 →
             (v !! j = Some 1%Z ↔ b1 = 1%Z ∨ b2 = 1%Z).
Proof.
  apply (reducer_labels_stay_multi_hot 1 rec1 rec2
           [Q2Qc 1; Q2Qc 2] [Q2Qc 3; Q2Qc 5]
           (labels_of rec1) (labels_of rec2)).
  - discriminate.
  - exact single_source_rec1.
  - exact single_source_rec2.
  - eexists. vm_compute. reflexivity.
Defined.

(** ** The stream *)

Local Open Scope nat_scope.

(** A full batch is emitted for every [batch_size] elements; what is left
    over is dropped. *)
Lemma batch_from_length (batch_size : nat) (dataset buffer bs : list record) :
  0 < batch_size →
  length buffer < batch_size →
  batch_from batch_size buffer dataset = Some bs →
  ∃ r, r < batch_size ∧
       length buffer + length dataset = batch_size * length bs + r.
Proof.
  intros Hpos. revert buffer bs.
  induction dataset as [|x rest IH]; intros buffer bs Hbuf Hrun.
  - injection Hrun as <-. exists (length buffer). simpl. lia.
  - cbn [batch_from] in Hrun. rewrite length_app in Hrun. cbn [length] in Hrun.
    destruct (length buffer + 1 =? batch_size) eqn:Hfull.
    + apply Nat.eqb_eq in Hfull.
      destruct (stack_examples (buffer ++ [x])) as [b|]; [|done].
      cbn [mbind option_bind] in Hrun.
      destruct (batch_from batch_size [] rest) as [bs'|] eqn:Hrest; [|done].
      injection Hrun as <-.
      destruct (IH [] bs') as (r & Hr & Heq); [simpl; lia | done |].
      exists r. split; [done|]. cbn [length] in *.
      rewrite Nat.mul_succ_r. lia.
    + apply Nat.eqb_neq in Hfull.
      destruct (IH (buffer ++ [x]) bs) as (r & Hr & Heq);
        [rewrite length_app; simpl; lia | done |].
      exists r. split; [done|]. rewrite length_app in Heq. simpl in *. lia.
Qed.

Lemma reduce_func_length (key : Z) (dataset out : list record) :
  reduce_func key dataset = Some out →
  ∃ r, r < (if (key =? 0)%Z then 1 else 2) ∧
       length dataset = (if (key =? 0)%Z then 1 else 2) * length out + r.
Proof.
  unfold reduce_func, batch. intros Hrun.
  destruct (key =? 0)%Z.
  - destruct (batch_from 1 [] dataset) as [bs|] eqn:Hbatch; [|done].
    cbn [mbind option_bind] in Hrun. apply length_mapM in Hrun.
    destruct (batch_from_length 1 dataset [] bs) as (r & Hr & Heq);
      [lia | simpl; lia | done |].
    exists r. split; [done|]. simpl in Heq. lia.
  - destruct (batch_from 2 [] dataset) as [bs|] eqn:Hbatch; [|done].
    cbn [mbind option_bind] in Hrun. apply length_mapM in Hrun.
    destruct (batch_from_length 2 dataset [] bs) as (r & Hr & Heq);
      [lia | simpl; lia | done |].
    exists r. split; [done|]. simpl in Heq. lia.
Qed.

(** X18.  When the reducer succeeds on a window, it emits one record for
    every record of the window on the path of key 0, and one record for
    every two records of the window (the odd one out is dropped) on the
    mixing path. *)
Theorem reduce_func_output_count (key : Z) (dataset out : list record) :
  reduce_func key dataset = Some out →
  (key = 0%Z → length out = length dataset) ∧
  (key ≠ 0%Z → length out = length dataset / 2).
Proof.
  intros Hrun. destruct (reduce_func_length key dataset out Hrun) as (r & Hr & Heq).
  split.
  - intros ->. simpl in *. lia.
  - intros Hkey. rewrite (proj2 (Z.eqb_neq key 0) Hkey) in Hr, Heq.
    by apply (Nat.div_unique _ 2 _ r).
Qed.

Lemma reduce_func_output_count_witness :
  ∃ out : list record,
    reduce_func 1 [rec1; rec2; rec1] = Some out ∧
    (1%Z = 0%Z → length out = length [rec1; rec2; rec1]) ∧
    (1%Z ≠ 0%Z → length out = length [rec1; rec2; rec1] / 2).
Proof.
  eexists. split; [vm_compute; reflexivity|].
  apply (reduce_func_output_count 1 [rec1; rec2; rec1]). vm_compute. reflexivity.
Defined.

(** *** Streams whose records all draw the same key *)

Lemma imap_all_key_0 (f : nat → record → Z * record) (ds : list record) :
  (∀ i x, f i x = (0%Z, x)) → imap f ds = map (pair 0%Z) ds.
Proof.
  revert f. induction ds as [|x ds IH]; intros f Hf; [done|].
  cbn [imap map]. rewrite Hf. f_equal. apply IH. intros i y. apply Hf.
Qed.

Lemma group_by_window_all_key_0 (n : nat) (ds : list record) :
  length ds ≤ n →
  group_by_window (map (pair 0%Z) ds) reduce_func 2 =
    @concat record <$> mapM (λ x, reduce_func 0 [x]) ds.
Proof.
  unfold group_by_window. revert ds.
  induction n as [|n IH]; intros ds Hlen.
  - destruct ds; [reflexivity | simpl in Hlen; lia].
  - destruct ds as [|x [|y ds]]; [reflexivity | |].
    + change (group_by_window_from reduce_func 2 [] (map (pair 0%Z) [x]))
        with (out ← reduce_func 0 [x]; more ← Some []; Some (out ++ more)).
      cbn [mapM]. destruct (reduce_func 0 [x]) as [o|]; [|done].
      cbn. by rewrite !app_nil_r.
    + assert (Hstep : ∀ rest,
                group_by_window_from reduce_func 2 []
                  ((0%Z, x) :: (0%Z, y) :: rest) =
                  out ← reduce_func 0 [x; y];
                  more ← group_by_window_from reduce_func 2 [] rest;
                  Some (out ++ more)) by reflexivity.
      cbn [map]. rewrite Hstep, reduce_func_key0_pair, IH
        by (simpl in Hlen; lia).
      cbn [mapM].
      destruct (reduce_func 0 [x]) as [o1|]; [|done].
      destruct (reduce_func 0 [y]) as [o2|]; [|done].
      cbn [mbind option_bind].
      destruct (mapM (λ x0 : record, reduce_func 0 [x0]) ds) as [os|]; [|done].
      cbn. by rewrite app_assoc.
Qed.

(** X19.  When no record draws the key 1 (as with [mixin_prob = 0]),
    [mix_audio] reduces every record on its own and emits the results in
    the order of the stream: nothing is mixed, dropped or reordered. *)
Theorem mix_audio_never_mixing (ds : list record) (mixin_prob : Qc)
    (draws : nat → Qc) :
  (∀ i, mixin_prob ≤ draws i)%Qc →
  mix_audio ds mixin_prob draws =
    @concat record <$> mapM (λ x, reduce_func 0 [x]) ds ∧
  ∀ out, mix_audio ds mixin_prob draws = Some out → length out = length ds.
Proof.
  intros Hdraws.
  assert (Hkeys : ∀ (i : nat) (x : record),
            (key_func mixin_prob (draws i), x) = (0%Z, x)).
  { intros i x. unfold key_func. rewrite decide_False; [done|].
    by apply Qcle_not_lt. }
  assert (Heq : mix_audio ds mixin_prob draws =
                @concat record <$> mapM (λ x, reduce_func 0 [x]) ds).
  { unfold mix_audio. rewrite (imap_all_key_0 _ _ Hkeys).
    by apply group_by_window_all_key_0 with (length ds). }
  split; [exact Heq|]. intros out. rewrite Heq. clear Heq. revert out.
  induction ds as [|x ds IH]; intros out Hout.
  - by injection Hout as <-.
  - cbn [mapM] in Hout.
    destruct (reduce_func 0 [x]) as [o|] eqn:Hx; [|done].
    cbn [mbind option_bind] in Hout, IH.
    destruct (mapM (λ x0 : record, reduce_func 0 [x0]) ds) as [os|]; [|done].
    cbn in Hout. injection Hout as <-.
    destruct (reduce_func_length 0 [x] o Hx) as (r & Hr & Hlen).
    rewrite length_app, (IH (@concat record os)) by done. simpl in *. lia.
Qed.

Lemma mix_audio_never_mixing_witness :
  mix_audio [rec1; rec2; rec1] 0%Qc (λ _, Q2Qc (1 # 2)) =
    @concat record <$> mapM (λ x, reduce_func 0 [x]) [rec1; rec2; rec1] ∧
  ∀ out, mix_audio [rec1; rec2; rec1] 0%Qc (λ _, Q2Qc (1 # 2)) = Some out →
         length out = length [rec1; rec2; rec1].
Proof.
  apply (mix_audio_never_mixing [rec1; rec2; rec1] 0%Qc (λ _, Q2Qc (1 # 2))).
  intros _. discriminate.
Defined.

(** X20.  When every record draws the key 1 (as with [mixin_prob = 1]),
    the last record of a stream of odd length has no effect on the output:
    the stream with it and the stream without it give the same result. *)
Theorem mix_audio_always_mixing_drops_last (ds : list record) (r : record)
    (mixin_prob : Qc) (draws : nat → Qc) :
  (∀ i, draws i < mixin_prob)%Qc →
  Nat.Even (length ds) →
  mix_audio (ds ++ [r]) mixin_prob draws = mix_audio ds mixin_prob draws.
Proof.
  intros Hdraws [n Hlen]. by apply mix_audio_unpartnered with n.
Qed.

Lemma mix_audio_always_mixing_drops_last_witness :
  mix_audio ([rec1; rec2] ++ [rec1]) 1%Qc (λ _, 0%Qc) =
    mix_audio [rec1; rec2] 1%Qc (λ _, 0%Qc).
Proof.
  apply (mix_audio_always_mixing_drops_last [rec1; rec2] rec1 1%Qc (λ _, 0%Qc)).
  - intros _. reflexivity.
  - exists 1. reflexivity.
Defined.

(** *** Streams of mixed keys *)

Section Windows.
Variable rf : Z → list record → option (list record).

Lemma step_key0_free (p1 : option record) (x : record)
    (rest : list (Z * record)) :
  group_by_window_from rf 2 (open_windows None p1) ((0%Z, x) :: rest) =
    group_by_window_from rf 2 (open_windows (Some x) p1) rest.
Proof. by destruct p1. Qed.

Lemma step_key0_full (p1 : option record) (a x : record)
    (rest : list (Z * record)) :
  group_by_window_from rf 2 (open_windows (Some a) p1) ((0%Z, x) :: rest) =
    out ← rf 0%Z [a; x];
    more ← group_by_window_from rf 2 (open_windows None p1) rest;
    Some (out ++ more).
Proof. by destruct p1. Qed.

Lemma step_key1_free (p0 : option record) (x : record)
    (rest : list (Z * record)) :
  group_by_window_from rf 2 (open_windows p0 None) ((1%Z, x) :: rest) =
    group_by_window_from rf 2 (open_windows p0 (Some x)) rest.
Proof. by destruct p0. Qed.

Lemma step_key1_full (p0 : option record) (b x : record)
    (rest : list (Z * record)) :
  group_by_window_from rf 2 (open_windows p0 (Some b)) ((1%Z, x) :: rest) =
    out ← rf 1%Z [b; x];
    more ← group_by_window_from rf 2 (open_windows p0 None) rest;
    Some (out ++ more).
Proof. by destruct p0. Qed.

Lemma flush_open_windows (p0 p1 : option record) :
  flush_windows rf (open_windows p0 p1) =
    out0 ← (match p0 with Some a => rf 0%Z [a] | None => Some [] end);
    out1 ← (match p1 with Some b => rf 1%Z [b] | None => Some [] end);
    Some (out0 ++ out1).
Proof.
  destruct p0 as [a|], p1 as [b|]; cbn [open_windows app flush_windows];
    repeat match goal with
      | |- context [rf ?k ?w] => destruct (rf k w); [|done]
      end;
    cbn; by rewrite ?app_nil_r.
Qed.
End Windows.

Lemma count_key_cons (k k' : Z) (keys : list Z) :
  count_key k (k' :: keys) =
    (if decide (k' = k) then 1 else 0) + count_key k keys.
Proof. unfold count_key. rewrite filter_cons. by case_decide. Qed.

(** The records emitted from a state with at most one record waiting for
    each key: every record of key 0, waiting or to come, gives one, and
    those of key 1 give one for every two. *)
Lemma group_by_window_count (keyed : list (Z * record)) :
  Forall (λ kx, kx.1 = 0%Z ∨ kx.1 = 1%Z) keyed →
  ∀ (p0 p1 : option record) (out : list record),
    group_by_window_from reduce_func 2 (open_windows p0 p1) keyed = Some out →
    length out =
      (count_key 0 keyed.*1 + (if p0 is Some _ then 1 else 0)) +
      Nat.div2 (count_key 1 keyed.*1 + (if p1 is Some _ then 1 else 0)).
Proof.
  induction 1 as [|[k x] keyed Hk _ IH]; intros p0 p1 out Hrun.
  - cbn [group_by_window_from] in Hrun. rewrite flush_open_windows in Hrun.
    destruct p0 as [a|], p1 as [b|];
      repeat match type of Hrun with
        | context [reduce_func ?key ?w] =>
            let o := fresh "o" in let Ho := fresh "Ho" in
            destruct (reduce_func key w) as [o|] eqn:Ho; [|done];
            apply reduce_func_length in Ho as (? & ? & ?)
        end;
      cbn in Hrun; injection Hrun as <-; rewrite ?length_app;
      simpl in *; lia.
  - rewrite fmap_cons, !count_key_cons. cbn [fst] in Hk |- *.
    set (c0 := count_key 0 keyed.*1) in *.
    set (c1 := count_key 1 keyed.*1) in *.
    destruct Hk as [-> | ->].
    + rewrite decide_True, decide_False by done. destruct p0 as [a|].
      * rewrite step_key0_full in Hrun.
        destruct (reduce_func 0 [a; x]) as [o|] eqn:Ho; [|done].
        cbn [mbind option_bind] in Hrun.
        destruct (group_by_window_from _ _ _ keyed) as [more|] eqn:Hmore;
          [|done].
        injection Hrun as <-. apply reduce_func_length in Ho as (r & Hr & Ho).
        rewrite length_app, (IH None p1 more Hmore).
        change (0 + c1) with c1. cbn [Z.eqb length] in Hr, Ho. lia.
      * rewrite step_key0_free in Hrun.
        rewrite (IH (Some x) p1 out Hrun). change (0 + c1) with c1. lia.
    + rewrite decide_False, decide_True by done. destruct p1 as [b|].
      * rewrite step_key1_full in Hrun.
        destruct (reduce_func 1 [b; x]) as [o|] eqn:Ho; [|done].
        cbn [mbind option_bind] in Hrun.
        destruct (group_by_window_from _ _ _ keyed) as [more|] eqn:Hmore;
          [|done].
        injection Hrun as <-. apply reduce_func_length in Ho as (r & Hr & Ho).
        rewrite length_app, (IH p0 None more Hmore).
        replace (1 + c1 + 1) with (S (S (c1 + 0))) by lia.
        cbn [Nat.div2]. cbn [Z.eqb length] in Hr, Ho. lia.
      * rewrite step_key1_free in Hrun.
        rewrite (IH p0 (Some x) out Hrun).
        replace (1 + c1 + 0) with (c1 + 1) by lia. lia.
Qed.

Lemma imap_keys (mixin_prob : Qc) (draws : nat → Qc) (ds : list record)
    (off : nat) :
  (imap (λ i x, (key_func mixin_prob (draws (off + i)), x)) ds).*1 =
    map (λ i, key_func mixin_prob (draws i)) (seq off (length ds)).
Proof.
  revert off. induction ds as [|x ds IH]; intros off; [done|].
  cbn [imap fmap list_fmap length seq map fst]. rewrite Nat.add_0_r. f_equal.
  rewrite <- (IH (S off)). f_equal. apply imap_ext. intros i y _. simpl.
  do 3 f_equal. lia.
Qed.

Lemma key_func_cases (mixin_prob u : Qc) :
  key_func mixin_prob u = 0%Z ∨ key_func mixin_prob u = 1%Z.
Proof. unfold key_func. case_decide; auto. Qed.

Lemma drawn_keys_total (mixin_prob : Qc) (draws : nat → Qc) (n : nat) :
  count_key 0 (drawn_keys mixin_prob draws n)
    + count_key 1 (drawn_keys mixin_prob draws n) =
  length (drawn_keys mixin_prob draws n).
Proof.
  unfold drawn_keys. induction (seq 0 n) as [|j js IH]; [done|].
  cbn [map]. rewrite !count_key_cons. cbn [length].
  destruct (key_func_cases mixin_prob (draws j)) as [-> | ->];
    [rewrite decide_True, decide_False by done
    |rewrite decide_False, decide_True by done]; lia.
Qed.

(** X21.  When [mix_audio] succeeds, it emits one record for every record
    that drew the key 0 and one record for every two records that drew the
    key 1, wherever they stand in the stream. *)
Theorem mix_audio_output_count (ds out : list record) (mixin_prob : Qc)
    (draws : nat → Qc) :
  mix_audio ds mixin_prob draws = Some out →
  count_key 0 (drawn_keys mixin_prob draws (length ds))
    + count_key 1 (drawn_keys mixin_prob draws (length ds)) = length ds ∧
  length out =
    count_key 0 (drawn_keys mixin_prob draws (length ds))
    + count_key 1 (drawn_keys mixin_prob draws (length ds)) / 2.
Proof.
  unfold mix_audio, group_by_window. intros Hrun.
  set (keyed := imap _ ds) in Hrun.
  assert (Hkeys : keyed.*1 = drawn_keys mixin_prob draws (length ds))
    by apply (imap_keys mixin_prob draws ds 0).
  assert (Hall : Forall (λ kx : Z * record, kx.1 = 0%Z ∨ kx.1 = 1%Z) keyed).
  { apply list.Forall_forall. intros [k x] Hin.
    apply list_elem_of_lookup in Hin as [i Hi]. unfold keyed in Hi.
    rewrite list_lookup_imap in Hi.
    destruct (ds !! i); [|done]. injection Hi as <- _. apply key_func_cases. }
  pose proof (group_by_window_count keyed Hall None None out Hrun) as Hcount.
  rewrite Hkeys, !Nat.add_0_r, Nat.div2_div in Hcount.
  split; [|exact Hcount].
  rewrite drawn_keys_total. unfold drawn_keys.
  by rewrite length_map, length_seq.
Qed.

Lemma mix_audio_output_count_witness :
  ∃ out : list record,
    mix_audio [rec1; rec2; rec1; rec2; rec1] (Q2Qc (1 # 2))
      (λ i, if Nat.even i then Q2Qc (1 # 4) else Q2Qc (3 # 4)) = Some out ∧
    count_key 0 (drawn_keys (Q2Qc (1 # 2))
                   (λ i, if Nat.even i then Q2Qc (1 # 4) else Q2Qc (3 # 4)) 5)
      + count_key 1 (drawn_keys (Q2Qc (1 # 2))
                   (λ i, if Nat.even i then Q2Qc (1 # 4) else Q2Qc (3 # 4)) 5)
      = 5 ∧
    length out =
      count_key 0 (drawn_keys (Q2Qc (1 # 2))
                     (λ i, if Nat.even i then Q2Qc (1 # 4) else Q2Qc (3 # 4)) 5)
      + count_key 1 (drawn_keys (Q2Qc (1 # 2))
                     (λ i, if Nat.even i then Q2Qc (1 # 4) else Q2Qc (3 # 4)) 5)
        / 2.
Proof.
  eexists. split; [vm_compute; reflexivity|].
  apply (mix_audio_output_count [rec1; rec2; rec1; rec2; rec1]).
  vm_compute. reflexivity.
Defined.

End PipelineExtras.
